(** * cursor_pro_unlock_auto.py: the installation patching pipeline

    A shallow embedding of the file-mutating steps of
    [cursor_pro_unlock_auto.py] and the properties the design document
    states about them.

    The first part holds the definitions: the embedding of the source and
    the vocabulary of the statements. The second part holds the properties.

    - Text is [string]; [str.replace] is embedded as a left-to-right scan.
    - The parsed JSON document is an ordered dictionary (association list
      with Python's item-assignment semantics).
    - The filesystem is a finite map from paths to nodes; console output,
      subprocess calls, signals and sleeps are recorded in an event trace.
    - [exit(1)] and uncaught exceptions are results of a small
      state-and-error monad. *)

From Stdlib Require Import String Ascii List ZArith NArith Lia Bool.
From Stdlib Require Import DecimalString.
From stdpp Require Import base gmap strings.

Local Open Scope string_scope.
Local Open Scope nat_scope.

#[local] Arguments String.append !s1 s2 : simpl nomatch.

(** ** Python's [str.replace] *)

Module PyStr.

(** [s.startswith(p)] *)
Fixpoint startswith (p s : string) : bool :=
  match p, s with
  | EmptyString, _ => true
  | String _ _, EmptyString => false
  | String a p', String b s' => Ascii.eqb a b && startswith p' s'
  end.

(** The scan of [s.replace(old, new)] for a non-empty [old]: [skip] counts
    the characters of a match that are still to be passed over. *)
Fixpoint replace_from (old new : string) (skip : nat) (s : string) : string :=
  match s with
  | EmptyString => EmptyString
  | String c s' =>
      match skip with
      | S k => replace_from old new k s'
      | O =>
          if startswith old s
          then new +:+ replace_from old new (String.length old - 1) s'
          else String c (replace_from old new 0 s')
      end
  end.

(** With an empty [old], Python inserts [new] before every character and
    at the end. *)
Fixpoint interleave (new s : string) : string :=
  match s with
  | EmptyString => new
  | String c s' => new +:+ String c (interleave new s')
  end.

(** [s.replace(old, new)] *)
Definition replace (old new s : string) : string :=
  match old with
  | EmptyString => interleave new s
  | String _ _ => replace_from old new 0 s
  end.

(** Number of positions of [s] at which [p] occurs (overlapping
    occurrences are all counted). *)
Fixpoint occurrences (p s : string) : nat :=
  match s with
  | EmptyString => 0
  | String _ s' => (if startswith p s then 1 else 0) + occurrences p s'
  end.

(** Whether the character [a] occurs in [s]. *)
Fixpoint has_char (a : ascii) (s : string) : bool :=
  match s with
  | EmptyString => false
  | String b s' => Ascii.eqb a b || has_char a s'
  end.

End PyStr.

(** ** The script patch (lines 227-229 of [patch_workbench]) *)

Definition marker1 : string := "checkForUpdates".
Definition marker2 : string := "restrictPremiumModels".
Definition markers : list string := [marker1; marker2].

(** The replacement the source writes for a marker: [/*marker*/]. *)
Definition disabled (m : string) : string := "/*" +:+ m +:+ "*/".

(** [content.replace('checkForUpdates', '/*checkForUpdates*/')
           .replace('restrictPremiumModels', '/*restrictPremiumModels*/')] *)
Definition patched_content (content : string) : string :=
  PyStr.replace "restrictPremiumModels" "/*restrictPremiumModels*/"
    (PyStr.replace "checkForUpdates" "/*checkForUpdates*/" content).

(** *** What "every occurrence wrapped, the rest unchanged" means

    [wraps t t'] reads [t] from left to right: where a marker starts, [t']
    holds the marker between [/*] and [*/] and the reading resumes after
    the marker; elsewhere [t'] holds the same character. *)
Inductive wraps : string -> string -> Prop :=
| wraps_end : wraps EmptyString EmptyString
| wraps_marker m r r' :
    In m markers -> wraps r r' ->
    wraps (m +:+ r) ("/*" +:+ m +:+ "*/" +:+ r')
| wraps_char c r r' :
    (forall m, In m markers -> PyStr.startswith m (String c r) = false) ->
    wraps r r' ->
    wraps (String c r) (String c r').

(** Number of literal occurrences of either marker in a text. *)
Definition marker_count (t : string) : nat :=
  PyStr.occurrences marker1 t + PyStr.occurrences marker2 t.

(** ** JSON documents as [json.load] returns them *)

#[local] Unset Elimination Schemes.
Inductive json : Type :=
| JNull
| JBool (b : bool)
| JInt (z : Z)
| JFloat (bits : N)       (* a Python float, as its 64 bits; never inspected *)
| JStr (s : string)
| JList (items : list json)
| JDict (d : list (string * json)).   (* insertion-ordered, as a Python dict *)
#[local] Set Elimination Schemes.

Module PyDict.

(** [d.get(k)] *)
Fixpoint get (k : string) (d : list (string * json)) : option json :=
  match d with
  | [] => None
  | (k', v') :: d' => if String.eqb k k' then Some v' else get k d'
  end.

(** [d[k] = v]: an existing key keeps its place, a new key goes last. *)
Fixpoint set (k : string) (v : json) (d : list (string * json))
  : list (string * json) :=
  match d with
  | [] => [(k, v)]
  | (k', v') :: d' =>
      if String.eqb k k' then (k, v) :: d' else (k', v') :: set k v d'
  end.

(** [list(d.keys())] *)
Definition keys (d : list (string * json)) : list string := map fst d.

(** [k in d] *)
Definition mem (k : string) (d : list (string * json)) : bool :=
  match get k d with Some _ => true | None => false end.

End PyDict.

(** [data[k] = v] on a parsed document: anything but a dict raises
    [TypeError] ([None]). *)
Definition setitem (data : json) (k : string) (v : json) : option json :=
  match data with
  | JDict d => Some (JDict (PyDict.set k v d))
  | _ => None
  end.

(** The list the source assigns to ['premiumModels']. *)
Definition premium_models : json :=
  JList [JStr "gpt-4o-mini"; JStr "gpt-4"; JStr "claude-3.5-sonnet"].

(** The document that lines 199-200 leave in [data]. *)
Definition patched_document (token_limit : json) (d : list (string * json))
  : list (string * json) :=
  PyDict.set "premiumModels" premium_models
    (PyDict.set "tokenLimit" token_limit d).

(** ** UUIDs ([uuid.uuid4], [str(UUID)]) *)

Module PyUuid.
Local Open Scope N_scope.

(** [UUID(bytes=os.urandom(16), version=4).int]: the variant bits are set
    to RFC 4122 and the version nibble to 4. *)
Definition uuid4 (random : N) : N :=
  let i := random mod 2 ^ 128 in
  let i := N.ldiff i (N.shiftl 0xc000 48) in
  let i := N.lor i (N.shiftl 0x8000 48) in
  let i := N.ldiff i (N.shiftl 0xf000 64) in
  N.lor i (N.shiftl 4 76).

Definition hex_digit (d : N) : ascii :=
  match String.get (N.to_nat d) "0123456789abcdef" with
  | Some c => c
  | None => "0"%char
  end.

(** ['%0kx' % n], for [n < 16 ^ k] *)
Fixpoint hex (k : nat) (n : N) : string :=
  match k with
  | O => EmptyString
  | S k' => String (hex_digit ((n / 16 ^ N.of_nat k') mod 16)) (hex k' n)
  end.

(** ['%s-%s-%s-%s-%s' % (hex[:8], hex[8:12], hex[12:16], hex[16:20], hex[20:])] *)
Definition dashed (h : string) : string :=
  String.substring 0 8 h +:+ "-" +:+ String.substring 8 4 h +:+ "-"
  +:+ String.substring 12 4 h +:+ "-" +:+ String.substring 16 4 h +:+ "-"
  +:+ String.substring 20 (String.length h - 20) h.

(** [str(u)] for a UUID with integer value [n] *)
Definition to_str (n : N) : string := dashed (hex 32 n).




End PyUuid.

(** ** The host: files, console, processes *)

(** What exists at a path, with the answer of [os.access(path, os.W_OK)].
    A file holds the text that text-mode [open] presents. *)
Inductive node : Type :=
| File (content : string) (w_ok : bool)
| Dir (w_ok : bool).

(** The fixed texts the script displays. *)
Inductive message : Type :=
| MsgCheckingProcesses | MsgClosingProcess | MsgProcessesChecked
| MsgNoProcessFound
| MsgResettingId | MsgIdReset (new_id : string)
| MsgUpdatingProduct | MsgProductUpdated (token_limit : json)
| MsgProductSkipped
| MsgPatchingWorkbench | MsgWorkbenchPatched | MsgWorkbenchSkipped
| MsgOpeningLogin | MsgLoginOpened | MsgLoginPrompt
| MsgPermissionError (path : string) | MsgResetError | MsgProductError
| MsgWorkbenchError | MsgBrowserError | MsgPathNotFound (path : string)
| MsgSuccess | MsgEnjoy.

Inductive event : Type :=
| Progress (m : message)            (* progress.add_task / progress.update *)
| Panel (m : message)               (* print_panel *)
| Print (m : message)               (* console.print *)
| LogRecord (path : string)         (* a record emitted by the logger *)
| Subprocess (argv : list string)   (* subprocess.check_call *)
| Terminate (pid : nat)             (* psutil: proc.terminate() *)
| Kill (pid : nat)                  (* psutil: proc.kill() *)
| Sleep (seconds : nat)             (* time.sleep *)
| Launch (browser : string)         (* the statement that builds the driver is
                                       entered: webdriver.Chrome(...) and the like *)
| Navigate (url : string)           (* driver.get *)
| AwaitEnter                        (* input() *)
| QuitDriver.                       (* driver.quit() *)

(** The disk is in two parts: [nodes], the paths that the script itself
    names, and [wdm], the cache directory of the driver managers, which
    only their [install()] writes. The script's own paths are taken not to
    lie in that cache. *)
Record world : Type := World {
  nodes : gmap string node;     (* the filesystem *)
  trace : list event;           (* what the run did so far, oldest first *)
  draws : nat;                  (* random values consumed so far *)
  wdm : list string             (* the browsers whose driver is in the cache *)
}.

(** A process as [psutil.process_iter(['name'])] yields it: the name in
    [proc.info] is [None] when psutil was denied access to it. *)
Record process : Type := Process { pid : nat; name : option string }.

(** How [proc.terminate()] ends. *)
Inductive terminate_outcome : Type :=
| SignalSent           (* the request reached the process *)
| ProcessGone          (* psutil.NoSuchProcess *)
| NotPermitted.        (* psutil.AccessDenied *)

Inductive call_outcome : Type :=
| CallReturned0        (* the command ran and returned 0 *)
| CallNonZero          (* CalledProcessError *)
| CallNotStarted.      (* OSError: the command could not be started *)

Inductive fault : Type :=
| NoFault
| OpenFails                 (* [open(path, 'w')] raises, nothing is touched *)
| WriteFails (n : nat).     (* the write raises after [n] characters *)

(** What the run gets from the platform and the libraries it calls. *)
Record env : Type := Env {
  system : string;                           (* platform.system() *)
  getlogin : string;                         (* os.getlogin() *)
  expanduser : string -> string;             (* os.path.expanduser *)
  path_join : string -> string -> string;    (* os.path.join *)
  check_call : list string -> call_outcome;  (* how subprocess.check_call ends *)
  grants : string -> bool;     (* does a successful escalation make the path writable *)
  read_fault : string -> bool;               (* reading the path raises *)
  write_fault : string -> fault;
  json_load : string -> option json;         (* json.load; None: JSONDecodeError *)
  json_dump : json -> string;                (* json.dump(_, indent=4) *)
  urandom : nat -> N;                        (* the k-th os.urandom(16) *)
  process_iter : list process;               (* psutil.process_iter(['name']) *)
  driver_fault : string -> bool;             (* starting the browser driver raises *)
  terminate_call : nat -> terminate_outcome; (* how proc.terminate() ends, by pid *)
  install_fault : string -> bool;            (* the driver manager's install() raises *)
  get_fault : string -> bool;                (* driver.get(url) raises *)
  input_fault : bool;                        (* input() raises EOFError *)
  quit_fault : bool                          (* driver.quit() raises *)
}.

(** ** Control flow: exceptions and [exit] *)

Inductive exn : Type :=
| CalledProcessError | OSError | JSONDecodeError | TypeError | ValueError
| NoSuchProcess | AccessDenied        (* psutil *)
| WebDriverException                  (* selenium *)
| EOFError.

Inductive result (A : Type) : Type :=
| Ok (a : A)
| Raised (e : exn)        (* an exception is propagating *)
| Exited (code : Z).      (* SystemExit from exit(code) *)
Arguments Ok {A} a.
Arguments Raised {A} e.
Arguments Exited {A} code.

Definition M (A : Type) : Type := world -> result A * world.

Definition ret {A} (a : A) : M A := fun w => (Ok a, w).

Definition bind {A B} (m : M A) (k : A -> M B) : M B :=
  fun w =>
    match m w with
    | (Ok a, w') => k a w'
    | (Raised e, w') => (Raised e, w')
    | (Exited c, w') => (Exited c, w')
    end.

Notation "x <- m ;; k" := (bind m (fun x => k))
  (at level 100, m at next level, right associativity).
Notation "m ;; k" := (bind m (fun _ => k))
  (at level 100, right associativity).

Definition raise {A} (e : exn) : M A := fun w => (Raised e, w).
Definition exit {A} (code : Z) : M A := fun w => (Exited code, w).

(** [try: body / except <caught>: handler]. [SystemExit] is not an
    [Exception] and passes through. *)
Definition try_except {A} (body : M A) (caught : exn -> bool)
    (handler : M A) : M A :=
  fun w =>
    match body w with
    | (Raised e, w') => if caught e then handler w' else (Raised e, w')
    | rw => rw
    end.

Definition any_exception (e : exn) : bool := true.
Definition is_CalledProcessError (e : exn) : bool :=
  match e with CalledProcessError => true | _ => false end.

(** ** Observations on a world *)

Definition exists_at (w : world) (p : string) : bool :=
  match nodes w !! p with Some _ => true | None => false end.

Definition writable_at (w : world) (p : string) : bool :=
  match nodes w !! p with
  | Some (File _ ok) | Some (Dir ok) => ok
  | None => false
  end.

(** The text of the file at [p], if there is one. *)
Definition content_at (w : world) (p : string) : option string :=
  match nodes w !! p with
  | Some (File c _) => Some c
  | _ => None
  end.

Definition is_subprocess (e : event) : bool :=
  match e with Subprocess _ => true | _ => false end.

(** Number of escalation commands in a trace. *)
Definition escalations (t : list event) : nat :=
  length (filter (fun e => is_subprocess e = true) t).

(** ** Primitive operations *)

Definition emit (e : event) : M unit :=
  fun w => (Ok tt, World (nodes w) (trace w ++ [e]) (draws w) (wdm w)).

Definition set_node (p : string) (n : node) (w : world) : world :=
  World (<[p := n]> (nodes w)) (trace w) (draws w) (wdm w).

(** [os.path.exists(p)] *)
Definition path_exists (p : string) : M bool :=
  fun w => (Ok (exists_at w p), w).

(** [os.access(p, os.W_OK)] *)
Definition access_w (p : string) : M bool :=
  fun w => (Ok (writable_at w p), w).

(** [with open(p, 'r') as f: f.read()] *)
Definition read_text (E : env) (p : string) : M string :=
  fun w =>
    match nodes w !! p with
    | Some (File content _) =>
        if read_fault E p then (Raised OSError, w) else (Ok content, w)
    | _ => (Raised OSError, w)
    end.

(** [with open(p, 'w') as f: f.write(s)]: [open] creates or truncates the
    file, then the text is written; a failing write leaves what reached
    the file. *)
Definition write_text (E : env) (p : string) (s : string) : M unit :=
  fun w =>
    match write_fault E p, nodes w !! p with
    | OpenFails, _ => (Raised OSError, w)
    | _, Some (Dir _) => (Raised OSError, w)
    | _, Some (File _ false) => (Raised OSError, w)
    | WriteFails n, _ =>
        if n <? String.length s
        then (Raised OSError, set_node p (File (String.substring 0 n s) true) w)
        else (Ok tt, set_node p (File s true) w)
    | NoFault, _ => (Ok tt, set_node p (File s true) w)
    end.

(** [subprocess.check_call(argv)], run to make [target] writable. *)
Definition subprocess_check_call (E : env) (argv : list string)
    (target : string) : M unit :=
  emit (Subprocess argv) ;;
  match check_call E argv with
  | CallReturned0 =>
      fun w =>
        (Ok tt,
         if grants E target
         then match nodes w !! target with
              | Some (File c _) => set_node target (File c true) w
              | Some (Dir _) => set_node target (Dir true) w
              | None => w
              end
         else w)
  | CallNonZero => raise CalledProcessError
  | CallNotStarted => raise OSError
  end.

(** [logging.basicConfig(level=logging.INFO)]: a DEBUG record is dropped. *)
Definition LOG_LEVEL : Z := 20.
Definition logger_debug (path : string) : M unit :=
  if (LOG_LEVEL <=? 10)%Z then emit (LogRecord path) else ret tt.

(** [str(uuid.uuid4())] *)
Definition new_uuid4 (E : env) : M string :=
  fun w =>
    (Ok (PyUuid.to_str (PyUuid.uuid4 (urandom E (draws w)))),
     World (nodes w) (trace w) (S (draws w)) (wdm w)).

(** ** The steps of the script *)

Definition LOGIN_URL : string :=
  "https://authenticator.cursor.sh/?client_id=client_01GS6W3C96KW4WRS6Z93JCE2RJ"
  +:+ "&redirect_uri=https%3A%2F%2Fcursor.com%2Fapi%2Fauth%2Fcallback"
  +:+ "&response_type=code"
  +:+ "&state=%257B%2522returnTo%2522%253A%2522%252Fsettings%2522%257D"
  +:+ "&authorization_session_id=01JTZKNFR5TRMTDGS621R3F1BQ".

Definition in_list (s : string) (l : list string) : bool :=
  existsb (String.eqb s) l.

(** [sub in s] *)
Fixpoint contains (sub s : string) : bool :=
  PyStr.startswith sub s
  || match s with
     | EmptyString => false
     | String _ s' => contains sub s'
     end.

(** [check_and_set_permissions(file_path)] *)
Definition check_and_set_permissions (E : env) (file_path : string) : M unit :=
  let file_path := expanduser E file_path in
  present <- path_exists file_path ;;
  if negb present then ret tt
  else
    try_except
      (writable <- access_w file_path ;;
       (if negb writable then
          if in_list (system E) ["Linux"; "Darwin"] then
            subprocess_check_call E ["sudo"; "chmod"; "u+rw"; file_path] file_path
          else if String.eqb (system E) "Windows" then
            subprocess_check_call E
              ["icacls"; file_path; "/grant"; getlogin E +:+ ":F"] file_path
          else ret tt
        else ret tt) ;;
       logger_debug file_path)
      is_CalledProcessError
      (emit (Panel (MsgPermissionError file_path)) ;; exit 1).

(** [sub in proc.info['name']]: [in] raises [TypeError] on [None]. *)
Definition name_contains (sub : string) (proc : process) : M bool :=
  match name proc with
  | Some n => ret (contains sub n)
  | None => raise TypeError
  end.

(** [proc.terminate()]: the request is recorded when it was sent. *)
Definition proc_terminate (E : env) (proc : process) : M unit :=
  match terminate_call E (pid proc) with
  | SignalSent => emit (Terminate (pid proc))
  | ProcessGone => raise NoSuchProcess
  | NotPermitted => raise AccessDenied
  end.

(** The loop body of [check_cursor_process], over the processes that
    [psutil.process_iter] yields; [cursor_found] is threaded through.
    Nothing in the loop is inside a [try]. *)
Fixpoint reap (E : env) (procs : list process) (cursor_found : bool)
  : M bool :=
  match procs with
  | [] => ret cursor_found
  | proc :: rest =>
      hit <- name_contains "Cursor" proc ;;
      if hit then
        proc_terminate E proc ;;
        emit (Progress MsgClosingProcess) ;;
        emit (Sleep 1) ;;
        reap E rest true
      else reap E rest cursor_found
  end.

(** [check_cursor_process()] *)
Definition check_cursor_process (E : env) : M unit :=
  emit (Progress MsgCheckingProcesses) ;;
  cursor_found <- reap E (process_iter E) false ;;
  emit (Progress (if cursor_found then MsgProcessesChecked
                  else MsgNoProcessFound)).

(** [reset_machine_id(cursor_path)] *)
Definition machine_id_path (E : env) (cursor_path : string) : string :=
  path_join E (expanduser E cursor_path) "machineId".

Definition reset_machine_id (E : env) (cursor_path : string) : M unit :=
  let machine_id_path := machine_id_path E cursor_path in
  check_and_set_permissions E machine_id_path ;;
  emit (Progress MsgResettingId) ;;
  try_except
    (new_id <- new_uuid4 E ;;
     write_text E machine_id_path new_id ;;
     emit (Progress (MsgIdReset new_id)))
    any_exception
    (emit (Panel MsgResetError) ;; exit 1).

(** [modify_product_json(cursor_path, token_limit)] *)
Definition product_json_path (E : env) (cursor_path : string) : string :=
  path_join E (expanduser E cursor_path) "product.json".

Definition of_option {A} (o : option A) (e : exn) : M A :=
  match o with Some a => ret a | None => raise e end.

Definition modify_product_json (E : env) (cursor_path : string)
    (token_limit : json) : M unit :=
  let product_json_path := product_json_path E cursor_path in
  check_and_set_permissions E product_json_path ;;
  emit (Progress MsgUpdatingProduct) ;;
  try_except
    (present <- path_exists product_json_path ;;
     if present then
       text <- read_text E product_json_path ;;
       data <- of_option (json_load E text) JSONDecodeError ;;
       data <- of_option (setitem data "tokenLimit" token_limit) TypeError ;;
       data <- of_option (setitem data "premiumModels" premium_models) TypeError ;;
       write_text E product_json_path (json_dump E data) ;;
       emit (Progress (MsgProductUpdated token_limit))
     else emit (Progress MsgProductSkipped))
    any_exception
    (emit (Panel MsgProductError) ;; exit 1).

(** [patch_workbench(cursor_path, cursor_version)] *)
Definition workbench_path (E : env) (cursor_path cursor_version : string)
  : string :=
  path_join E (expanduser E cursor_path)
    ("app-" +:+ cursor_version
     +:+ "/resources/app/out/vs/code/electron-browser/workbench/workbench.desktop.main.js").

Definition patch_workbench (E : env) (cursor_path cursor_version : string)
  : M unit :=
  let workbench_path := workbench_path E cursor_path cursor_version in
  check_and_set_permissions E workbench_path ;;
  emit (Progress MsgPatchingWorkbench) ;;
  try_except
    (present <- path_exists workbench_path ;;
     if present then
       content <- read_text E workbench_path ;;
       write_text E workbench_path (patched_content content) ;;
       emit (Progress MsgWorkbenchPatched)
     else emit (Progress MsgWorkbenchSkipped))
    any_exception
    (emit (Panel MsgWorkbenchError) ;; exit 1).

(** [open_login_page(browser_type)] *)

(** [ChromeDriverManager().install()] and the like: the driver is left in
    the manager's cache, unless the manager fails (no network, no such
    browser). *)
Definition install_driver (E : env) (browser : string) : M unit :=
  fun w =>
    if install_fault E browser then (Raised OSError, w)
    else (Ok tt,
          World (nodes w) (trace w) (draws w)
            (if in_list browser (wdm w) then wdm w else browser :: wdm w)).

(** The statement that builds the driver: for Chrome, Firefox and Edge the
    argument of the constructor first has the manager install the driver
    ([managed]); Safari has no manager. *)
Definition start_driver (E : env) (browser : string) (managed : bool)
  : M unit :=
  emit (Launch browser) ;;
  (if managed then install_driver E browser else ret tt) ;;
  if driver_fault E browser then raise WebDriverException else ret tt.

(** [driver.get(url)], [input()] and [driver.quit()]: each is recorded
    when it returned. *)
Definition driver_get (E : env) (url : string) : M unit :=
  if get_fault E url then raise WebDriverException else emit (Navigate url).

Definition await_enter (E : env) : M unit :=
  if input_fault E then raise EOFError else emit AwaitEnter.

Definition driver_quit (E : env) : M unit :=
  if quit_fault E then raise WebDriverException else emit QuitDriver.

Definition open_login_page (E : env) (browser_type : string) : M unit :=
  emit (Progress MsgOpeningLogin) ;;
  try_except
    ((if String.eqb browser_type "chrome" then start_driver E "chrome" true
      else if String.eqb browser_type "firefox" then
        start_driver E "firefox" true
      else if String.eqb browser_type "edge" then start_driver E "edge" true
      else if String.eqb browser_type "safari" then
        if negb (String.eqb (system E) "Darwin") then raise ValueError
        else start_driver E "safari" false
      else raise ValueError) ;;
     driver_get E LOGIN_URL ;;
     emit (Progress MsgLoginOpened) ;;
     emit (Panel MsgLoginPrompt) ;;
     await_enter E ;;
     driver_quit E)
    any_exception
    (emit (Panel MsgBrowserError) ;; exit 1).

(** The configuration that [load_config()] returns. *)
Record config : Type := Config {
  cursor_path : string;
  browser : string;
  token_limit : json;
  cursor_version : string
}.

(** Lines 348-352 of [main]: the five steps, in the order written. *)
Definition run_steps (E : env) (cfg : config) (browser_type : string)
  : M unit :=
  check_cursor_process E ;;
  reset_machine_id E (cursor_path cfg) ;;
  modify_product_json E (cursor_path cfg) (token_limit cfg) ;;
  patch_workbench E (cursor_path cfg) (cursor_version cfg) ;;
  open_login_page E browser_type.

(** [main()], from the point where the configuration is loaded (line 330)
    and the browser is chosen (line 345): [cfg] is what [load_config()]
    returned and [browser_type] what [select_browser()] returned. *)
Definition main (E : env) (cfg : config) (browser_type : string) : M unit :=
  present <- path_exists (expanduser E (cursor_path cfg)) ;;
  (if negb present
   then emit (Panel (MsgPathNotFound (cursor_path cfg))) ;; exit 1
   else ret tt) ;;
  run_steps E cfg browser_type ;;
  emit (Panel MsgSuccess) ;;
  emit (Print MsgEnjoy).

(** ** Observations on a run *)

(** [open(p, 'w')] succeeds on a missing path and on a writable file. *)
Definition can_open_w (w : world) (p : string) : bool :=
  match nodes w !! p with
  | Some (File _ ok) => ok
  | Some (Dir _) => false
  | None => true
  end.

(** [after m w Q]: the result and the world that [m] leaves when started
    in [w] satisfy [Q]. *)
Definition after {A} (m : M A) (w : world)
    (Q : result A -> world -> Prop) : Prop :=
  Q (fst (m w)) (snd (m w)).

(** [respects R m]: wherever [m] is started, the world it leaves is
    related by [R] to the world it started in, whatever its result. *)
Definition respects {A} (R : world -> world -> Prop) (m : M A) : Prop :=
  forall w, R w (snd (m w)).

(** The trace of [w'] extends the trace of [w]. *)
Definition trace_grows (w w' : world) : Prop := trace w `prefix_of` trace w'.

(** The file at [q] holds in [w'] the text it holds in [w]. *)
Definition keeps_content (q : string) (w w' : world) : Prop :=
  content_at w' q = content_at w q.

(** The write of [new] to [p] was cut: the file holds the first [n]
    characters of [new], fewer than all. *)
Definition cut_short (E : env) (p new : string) (w' : world) : Prop :=
  exists n, write_fault E p = WriteFails n
            /\ n < String.length new
            /\ content_at w' p = Some (String.substring 0 n new).

(** The processes whose name contains ["Cursor"]. *)
Definition is_match (proc : process) : bool :=
  match name proc with
  | Some n => contains "Cursor" n
  | None => false
  end.

Definition matching (procs : list process) : list process :=
  List.filter is_match procs.

(** The exception with which the loop body ends for [proc], if it does:
    a process without a name, or a match that cannot be asked. *)
Definition fails_on (E : env) (proc : process) : option exn :=
  match name proc with
  | None => Some TypeError
  | Some n =>
      if contains "Cursor" n then
        match terminate_call E (pid proc) with
        | SignalSent => None
        | ProcessGone => Some NoSuchProcess
        | NotPermitted => Some AccessDenied
        end
      else None
  end.

(** The processes the loop gets through, and the exception that ends it
    at the next one, if one does. *)
Fixpoint reaped (E : env) (procs : list process)
  : list process * option exn :=
  match procs with
  | [] => ([], None)
  | proc :: rest =>
      match fails_on E proc with
      | Some e => ([], Some e)
      | None => (proc :: fst (reaped E rest), snd (reaped E rest))
      end
  end.

(** What the loop does for one matching process. *)
Definition reap_events (proc : process) : list event :=
  [Terminate (pid proc); Progress MsgClosingProcess; Sleep 1].

(** The pids a trace asks to terminate, and the pids it asks to kill. *)
Definition terminated (t : list event) : list nat :=
  flat_map (fun e => match e with Terminate p => [p] | _ => [] end) t.


Definition is_nil {A} (l : list A) : bool :=
  match l with [] => true | _ => false end.

(** ** The order of the steps *)

Inductive step : Type := Reap | ResetId | PatchConfig | PatchScript | Login.

(** The five calls of lines 348-352, by name. *)
Definition step_run (E : env) (cfg : config) (browser_type : string)
    (s : step) : M unit :=
  match s with
  | Reap => check_cursor_process E
  | ResetId => reset_machine_id E (cursor_path cfg)
  | PatchConfig => modify_product_json E (cursor_path cfg) (token_limit cfg)
  | PatchScript => patch_workbench E (cursor_path cfg) (cursor_version cfg)
  | Login => open_login_page E browser_type
  end.

Definition pipeline : list step :=
  [Reap; ResetId; PatchConfig; PatchScript; Login].

(** The file a step writes, if it writes one. *)
Definition target (E : env) (cfg : config) (s : step) : option string :=
  match s with
  | ResetId => Some (machine_id_path E (cursor_path cfg))
  | PatchConfig => Some (product_json_path E (cursor_path cfg))
  | PatchScript => Some (workbench_path E (cursor_path cfg) (cursor_version cfg))
  | Reap | Login => None
  end.

(** [runs_in_order run ss w done r w']: started in [w], the steps [ss] run
    one after the other, each in the world its predecessor left; a step
    runs only after its predecessor returned normally. [done] lists the
    steps that returned normally, each with the world it left; [r] and
    [w'] are the result and the world of the last step that ran. *)
Inductive runs_in_order (run : step -> M unit) :
    list step -> world -> list (step * world) -> result unit -> world -> Prop :=
| rio_done w : runs_in_order run [] w [] (Ok tt) w
| rio_next s ss w w1 done r w' :
    run s w = (Ok tt, w1) ->
    runs_in_order run ss w1 done r w' ->
    runs_in_order run (s :: ss) w ((s, w1) :: done) r w'
| rio_stop s ss w r w' :
    run s w = (r, w') -> r <> Ok tt ->
    runs_in_order run (s :: ss) w [] r w'.

(** [m1 ;; m2 ;; ... ;; ret tt] *)
Fixpoint seq_all (ms : list (M unit)) : M unit :=
  match ms with
  | [] => ret tt
  | m :: ms' => m ;; seq_all ms'
  end.

(** ** Further vocabulary *)

(** The command that [check_and_set_permissions] runs for the expanded
    path [q] (lines 118-121): [sudo chmod] on Linux and macOS, [icacls] on
    Windows, none on any other platform. *)
Definition escalation_command (E : env) (q : string) : option (list string) :=
  if in_list (system E) ["Linux"; "Darwin"] then
    Some ["sudo"; "chmod"; "u+rw"; q]
  else if String.eqb (system E) "Windows" then
    Some ["icacls"; q; "/grant"; getlogin E +:+ ":F"]
  else None.

(** The world after the command [argv], run for [q], returned 0. *)
Definition granted (E : env) (q : string) (argv : list string) (w : world)
  : world :=
  let w1 := World (nodes w) (trace w ++ [Subprocess argv]) (draws w) (wdm w) in
  if grants E q
  then match nodes w !! q with
       | Some (File c _) => set_node q (File c true) w1
       | Some (Dir _) => set_node q (Dir true) w1
       | None => w1
       end
  else w1.

(** The browsers for which [open_login_page] starts a driver (lines
    275-288): Chrome, Firefox, Edge, and Safari on macOS. *)
Definition supported_browser (E : env) (browser_type : string) : bool :=
  in_list browser_type ["chrome"; "firefox"; "edge"]
  || (String.eqb browser_type "safari" && String.eqb (system E) "Darwin").

(** [select_browser()] (lines 239-263). [browsers] is the menu: three
    entries, and a fourth on macOS; a key maps to the browser and the name
    shown for it. [select_browser E choice] is what the function returns
    when the prompt returned [choice]; the prompt is given the keys of the
    menu as its choices. [None] stands for the [KeyError] of a key that
    is not in the menu. *)
Definition browsers (E : env) : list (string * (string * string)) :=
  let browsers := [("1", ("chrome", "Google Chrome"));
                   ("2", ("firefox", "Firefox"));
                   ("3", ("edge", "Microsoft Edge"))] in
  if String.eqb (system E) "Darwin"
  then (browsers ++ [("4", ("safari", "Safari"))])%list
  else browsers.

Fixpoint menu_get (key : string) (menu : list (string * (string * string)))
  : option (string * string) :=
  match menu with
  | [] => None
  | (k, entry) :: menu' =>
      if String.eqb key k then Some entry else menu_get key menu'
  end.

Definition select_browser (E : env) (choice : string) : option string :=
  match menu_get choice (browsers E) with
  | Some entry => Some (fst entry)
  | None => None
  end.

(** The trace of [w] with the events [evs] after it. *)
Definition with_events (w : world) (evs : list event) : world :=
  World (nodes w) (trace w ++ evs) (draws w) (wdm w).

(** The shape of the text of a UUID: 36 characters, a dash at the
    positions 8, 13, 18 and 23 and a lower-case hexadecimal digit at
    every other position. [uuid_shaped_from i s] reads [s] as the text
    from position [i] on. *)
Fixpoint uuid_shaped_from (i : nat) (s : string) : bool :=
  match s with
  | EmptyString => Nat.eqb i 36
  | String c s' =>
      (if existsb (Nat.eqb i) [8; 13; 18; 23]
       then Ascii.eqb c "-"
       else PyStr.has_char c "0123456789abcdef")
      && uuid_shaped_from (S i) s'
  end.

Definition uuid_shaped (s : string) : bool := uuid_shaped_from 0 s.

(** Every character of [s] is a lower-case hexadecimal digit. *)
Fixpoint all_hex (s : string) : bool :=
  match s with
  | EmptyString => true
  | String c s' => PyStr.has_char c "0123456789abcdef" && all_hex s'
  end.

(** How a run of the steps can end. The handlers of the script end it
    with [exit(1)]. Two kinds of exception are raised outside every
    handler: the [OSError] of a permission command that could not be
    started, which leaves the command in the trace, and what the loop over
    the processes raises. *)
Definition unstarted_command (E : env) (w' : world) : Prop :=
  exists argv,
    In (Subprocess argv) (trace w') /\ check_call E argv = CallNotStarted.

Definition reaper_failure (E : env) (r : result unit) : Prop :=
  exists proc e,
    In proc (process_iter E) /\ fails_on E proc = Some e /\ r = Raised e.

Definition ends_as_handled (E : env) (r : result unit) (w' : world) : Prop :=
  r = Ok tt \/ r = Exited 1
  \/ (r = Raised OSError /\ unstarted_command E w')
  \/ reaper_failure E r.

(** The browsers whose driver a manager installs (lines 278-282), and the
    world with the driver of [browser] in the managers' cache. *)
Definition managed (browser : string) : bool :=
  in_list browser ["chrome"; "firefox"; "edge"].

Definition cached (browser : string) (w : world) : world :=
  World (nodes w) (trace w) (draws w)
    (if in_list browser (wdm w) then wdm w else browser :: wdm w).

(** ** A concrete host for the examples

    POSIX paths, a home directory, and a JSON reader and writer for
    documents made of null, booleans, integers, strings without escapes,
    lists and objects (what the examples use). *)

Module Demo.

Definition home : string := "/home/user".

(** [posixpath.expanduser] for the current user; other [~name] forms are
    left as they are, as for an unknown user. *)
Definition posix_expanduser (p : string) : string :=
  match p with
  | String "~" EmptyString => home
  | String "~" (String "/" _ as rest) => home +:+ rest
  | _ => p
  end.

Fixpoint ends_with_slash (s : string) : bool :=
  match s with
  | EmptyString => false
  | String c EmptyString => Ascii.eqb c "/"
  | String _ s' => ends_with_slash s'
  end.

(** [posixpath.join(a, b)] *)
Definition posix_join (a b : string) : string :=
  if PyStr.startswith "/" b then b
  else if String.eqb a EmptyString || ends_with_slash a then a +:+ b
  else a +:+ "/" +:+ b.

Definition dq : ascii := "034"%char.
Definition nl : ascii := "010"%char.

Fixpoint spaces (n : nat) : string :=
  match n with O => EmptyString | S k => String " " (spaces k) end.

Definition newline_indent (level : nat) : string :=
  String nl (spaces (4 * level)).

Definition quoted (s : string) : string := String dq (s +:+ String dq EmptyString).

(** [json.dumps(v, indent=4)] on the documents covered. *)
Fixpoint dumps (level : nat) (v : json) : string :=
  match v with
  | JNull => "null"
  | JBool true => "true"
  | JBool false => "false"
  | JInt z => NilZero.string_of_int (Z.to_int z)
  | JFloat _ => "NaN"
  | JStr s => quoted s
  | JList [] => "[]"
  | JList (x :: xs) =>
      "[" +:+ newline_indent (S level) +:+ dumps (S level) x
      +:+ (fix rest (l : list json) : string :=
             match l with
             | [] => EmptyString
             | y :: l' =>
                 "," +:+ newline_indent (S level) +:+ dumps (S level) y
                 +:+ rest l'
             end) xs
      +:+ newline_indent level +:+ "]"
  | JDict [] => "{}"
  | JDict ((k, x) :: kvs) =>
      "{" +:+ newline_indent (S level) +:+ quoted k +:+ ": "
      +:+ dumps (S level) x
      +:+ (fix rest (l : list (string * json)) : string :=
             match l with
             | [] => EmptyString
             | (k', y) :: l' =>
                 "," +:+ newline_indent (S level) +:+ quoted k' +:+ ": "
                 +:+ dumps (S level) y +:+ rest l'
             end) kvs
      +:+ newline_indent level +:+ "}"
  end.

Definition is_ws (c : ascii) : bool :=
  Ascii.eqb c " " || Ascii.eqb c nl || Ascii.eqb c "009" || Ascii.eqb c "013".

Definition is_digit (c : ascii) : bool :=
  (48 <=? nat_of_ascii c) && (nat_of_ascii c <=? 57).

Fixpoint skip_ws (s : string) : string :=
  match s with
  | String c r => if is_ws c then skip_ws r else s
  | EmptyString => EmptyString
  end.

(** The rest of [s] behind its first character, when that is [c]. *)
Definition behind (c : ascii) (s : string) : option string :=
  match s with
  | String c' r => if Ascii.eqb c c' then Some r else None
  | EmptyString => None
  end.

(** The characters up to the closing quote. *)
Fixpoint take_string (s : string) : option (string * string) :=
  match s with
  | EmptyString => None
  | String c r =>
      if Ascii.eqb c dq then Some (EmptyString, r)
      else if Ascii.eqb c "\" then None
      else match take_string r with
           | Some (a, r') => Some (String c a, r')
           | None => None
           end
  end.

Fixpoint take_digits (s : string) : string * string :=
  match s with
  | String c r =>
      if is_digit c
      then let (d, r') := take_digits r in (String c d, r')
      else (EmptyString, s)
  | EmptyString => (EmptyString, EmptyString)
  end.

Definition take_int (s : string) : option (Z * string) :=
  let (negative, s1) :=
    match behind "-" s with Some r => (true, r) | None => (false, s) end in
  let (digits, r) := take_digits s1 in
  match digits, NilZero.uint_of_string digits with
  | String _ _, Some u =>
      let n := Z.of_N (N.of_uint u) in
      Some (if negative then (- n)%Z else n, r)
  | _, _ => None
  end.

Definition take_literal (lit : string) (v : json) (s : string)
  : option (json * string) :=
  if PyStr.startswith lit s
  then Some (v, String.substring (String.length lit)
                  (String.length s - String.length lit) s)
  else None.

(** [dict(pairs)]: a repeated key keeps its first place and its last
    value. *)
Definition dict_of_pairs (kvs : list (string * json)) : list (string * json) :=
  fold_left (fun d kv => PyDict.set (fst kv) (snd kv) d) kvs [].

Fixpoint parse_value (fuel : nat) (s : string) {struct fuel}
  : option (json * string) :=
  match fuel with
  | O => None
  | S f =>
      match skip_ws s with
      | EmptyString => None
      | String c r as s1 =>
          if Ascii.eqb c dq then
            match take_string r with
            | Some (a, r') => Some (JStr a, r')
            | None => None
            end
          else if Ascii.eqb c "[" then
            match behind "]" (skip_ws r) with
            | Some r' => Some (JList [], r')
            | None =>
                match parse_items f r with
                | Some (l, r') => Some (JList l, r')
                | None => None
                end
            end
          else if Ascii.eqb c "{" then
            match behind "}" (skip_ws r) with
            | Some r' => Some (JDict [], r')
            | None =>
                match parse_members f r with
                | Some (d, r') => Some (JDict (dict_of_pairs d), r')
                | None => None
                end
            end
          else if Ascii.eqb c "n" then take_literal "null" JNull s1
          else if Ascii.eqb c "t" then take_literal "true" (JBool true) s1
          else if Ascii.eqb c "f" then take_literal "false" (JBool false) s1
          else match take_int s1 with
               | Some (z, r') => Some (JInt z, r')
               | None => None
               end
      end
  end
with parse_items (fuel : nat) (s : string) {struct fuel}
  : option (list json * string) :=
  match fuel with
  | O => None
  | S f =>
      match parse_value f s with
      | Some (v, r) =>
          match behind "," (skip_ws r), behind "]" (skip_ws r) with
          | Some r', _ =>
              match parse_items f r' with
              | Some (l, r'') => Some (v :: l, r'')
              | None => None
              end
          | None, Some r' => Some ([v], r')
          | None, None => None
          end
      | None => None
      end
  end
with parse_members (fuel : nat) (s : string) {struct fuel}
  : option (list (string * json) * string) :=
  match fuel with
  | O => None
  | S f =>
      match behind dq (skip_ws s) with
      | None => None
      | Some r =>
          match take_string r with
          | None => None
          | Some (k, r1) =>
              match behind ":" (skip_ws r1) with
              | None => None
              | Some r2 =>
                  match parse_value f r2 with
                  | None => None
                  | Some (v, r3) =>
                      match behind "," (skip_ws r3), behind "}" (skip_ws r3) with
                      | Some r4, _ =>
                          match parse_members f r4 with
                          | Some (d, r5) => Some ((k, v) :: d, r5)
                          | None => None
                          end
                      | None, Some r4 => Some ([(k, v)], r4)
                      | None, None => None
                      end
                  end
              end
          end
      end
  end.

(** [json.loads(s)] on the documents covered. *)
Definition loads (s : string) : option json :=
  match parse_value (2 * String.length s + 2) s with
  | Some (v, r) =>
      match skip_ws r with EmptyString => Some v | _ => None end
  | None => None
  end.

(** A Linux host: every file operation succeeds, escalation is refused,
    nothing is running. *)
Definition host : env :=
  Env "Linux" "user" posix_expanduser posix_join
    (fun _ => CallNonZero) (fun _ => false)
    (fun _ => false) (fun _ => NoFault)
    loads (dumps 0)
    (fun k => (N.of_nat k + 1) * 0x0123456789abcdef0123456789abcdef)%N
    [] (fun _ => false)
    (fun _ => SignalSent) (fun _ => false) (fun _ => false) false false.

(** The same host with the given processes running. *)
Definition host_running (procs : list process) : env :=
  Env "Linux" "user" posix_expanduser posix_join
    (fun _ => CallNonZero) (fun _ => false)
    (fun _ => false) (fun _ => NoFault)
    loads (dumps 0)
    (fun k => (N.of_nat k + 1) * 0x0123456789abcdef0123456789abcdef)%N
    procs (fun _ => false)
    (fun _ => SignalSent) (fun _ => false) (fun _ => false) false false.

(** The same host on which every write is cut after [n] characters. *)
Definition host_cut (n : nat) : env :=
  Env "Linux" "user" posix_expanduser posix_join
    (fun _ => CallNonZero) (fun _ => false)
    (fun _ => false) (fun _ => WriteFails n)
    loads (dumps 0)
    (fun k => (N.of_nat k + 1) * 0x0123456789abcdef0123456789abcdef)%N
    [] (fun _ => false)
    (fun _ => SignalSent) (fun _ => false) (fun _ => false) false false.


(** The host on which the browser starts but standard input is closed. *)
Definition host_no_stdin : env :=
  Env "Linux" "user" posix_expanduser posix_join
    (fun _ => CallNonZero) (fun _ => false)
    (fun _ => false) (fun _ => NoFault)
    loads (dumps 0)
    (fun k => (N.of_nat k + 1) * 0x0123456789abcdef0123456789abcdef)%N
    [] (fun _ => false)
    (fun _ => SignalSent) (fun _ => false) (fun _ => false) true false.

Definition cfg : config := Config "~/.config/cursor" "chrome" (JInt 500000) "0.49.2".

Definition root : string := "/home/user/.config/cursor".
Definition machine_id : string := "/home/user/.config/cursor/machineId".
Definition product_json : string := "/home/user/.config/cursor/product.json".
Definition workbench_js : string :=
  "/home/user/.config/cursor/app-0.49.2/resources/app/out/vs/code/electron-browser/workbench/workbench.desktop.main.js".

Definition doc_a : json := JDict [("a", JInt 1)].

(** An installation with all three files, a bare one, and one whose
    [product.json] is read-only. *)
Definition installed : world :=
  World (<[machine_id := File "old-id" true]>
         (<[product_json := File (dumps 0 doc_a) true]>
          (<[workbench_js := File "if(a.checkForUpdates()){}" true]>
           {[root := Dir true]})))
    [] 0 [].

Definition bare : world := World {[root := Dir true]} [] 0 [].

Definition read_only : world :=
  World (<[product_json := File (dumps 0 doc_a) false]> {[root := Dir true]})
    [] 0 [].

End Demo.

(** * Properties *)

(** ** Examples of the script patch and of the UUID text *)

Example patched_two :
  patched_content "a.checkForUpdates();b.checkForUpdates()"
  = "a./*checkForUpdates*/();b./*checkForUpdates*/()".
Proof. reflexivity. Qed.

Example patched_both :
  patched_content "x restrictPremiumModels y checkForUpdates z"
  = "x /*restrictPremiumModels*/ y /*checkForUpdates*/ z".
Proof. reflexivity. Qed.

Example replace_empty_old : PyStr.replace EmptyString "-" "abc" = "-a-b-c-".
Proof. reflexivity. Qed.

Example replace_overlap : PyStr.replace "aa" "b" "aaa" = "ba".
Proof. reflexivity. Qed.

Example uuid4_zero :
  PyUuid.to_str (PyUuid.uuid4 0) = "00000000-0000-4000-8000-000000000000".
Proof. vm_compute. reflexivity. Qed.

Example uuid4_ones :
  PyUuid.to_str (PyUuid.uuid4 (2 ^ 128 - 1))
  = "ffffffff-ffff-4fff-bfff-ffffffffffff".
Proof. vm_compute. reflexivity. Qed.

(** ** Facts about [str.replace] *)

Module PyStrFacts.
Import PyStr.

Lemma app_assoc (a b c : string) : (a +:+ b) +:+ c = a +:+ (b +:+ c).
Proof. induction a as [|x a IH]; simpl; [reflexivity | now rewrite IH]. Qed.

Lemma length_app (a b : string) :
  String.length (a +:+ b) = String.length a + String.length b.
Proof. induction a as [|x a IH]; simpl; [reflexivity | now rewrite IH]. Qed.

Lemma startswith_app (p r : string) : startswith p (p +:+ r) = true.
Proof.
  induction p as [|a p IH]; simpl; [reflexivity |].
  now rewrite Ascii.eqb_refl, IH.
Qed.

Lemma startswith_split (p s : string) :
  startswith p s = true -> exists r, s = p +:+ r.
Proof.
  revert s; induction p as [|a p IH]; intros s H.
  - exists s; reflexivity.
  - destruct s as [|b s]; simpl in H; [discriminate |].
    apply andb_true_iff in H as [Hab Hps].
    apply Ascii.eqb_eq in Hab; subst b.
    destruct (IH _ Hps) as [r ->]. now exists r.
Qed.

(** The characters of a match are passed over, and the scan resumes after
    them. *)
Lemma replace_from_skip (old new s r : string) :
  replace_from old new (String.length s) (s +:+ r) = replace_from old new 0 r.
Proof. induction s as [|c s IH]; simpl; [reflexivity | exact IH]. Qed.

(** Unfolding equations of the scan: at a match, [new] is written and the
    scan resumes behind the match; elsewhere the character is copied. *)
Lemma replace_from_hit (old new r : string) :
  old <> EmptyString ->
  replace_from old new 0 (old +:+ r) = new +:+ replace_from old new 0 r.
Proof.
  destruct old as [|c old]; [congruence | intros _].
  change (String c old +:+ r) with (String c (old +:+ r)).
  cbn [replace_from].
  change (String c (old +:+ r)) with (String c old +:+ r).
  rewrite startswith_app. f_equal.
  replace (String.length (String c old) - 1) with (String.length old)
    by (simpl; lia).
  apply replace_from_skip.
Qed.

Lemma replace_from_miss (old new : string) c r :
  startswith old (String c r) = false ->
  replace_from old new 0 (String c r) = String c (replace_from old new 0 r).
Proof. intros H. cbn [replace_from]. now rewrite H. Qed.

(** A pattern that does not contain the first character of [new] starts
    the replaced text only if it starts the original text. *)
Lemma startswith_replace_from (old new' p : string) a :
  has_char a p = false ->
  forall s, startswith p (replace_from old (String a new') 0 s) = true ->
            startswith p s = true.
Proof.
  induction p as [|b p IH]; intros Hp s H; [reflexivity |].
  simpl in Hp. apply orb_false_iff in Hp as [Hab Hp].
  destruct s as [|c s]; [simpl in H; discriminate |].
  cbn [replace_from] in H.
  destruct (startswith old (String c s)).
  - simpl in H. rewrite Ascii.eqb_sym, Hab in H. discriminate.
  - simpl in H. simpl. apply andb_true_iff in H as [Hbc H].
    rewrite Hbc. simpl. now apply IH.
Qed.

End PyStrFacts.

(** ** Facts about the script patch *)

Module PatchFacts.
Import PyStr PyStrFacts.

Lemma marker_cases m : In m markers -> m = marker1 \/ m = marker2.
Proof. simpl. intuition. Qed.

Ltac copy_chars :=
  repeat (rewrite replace_from_miss by reflexivity).

(** The first replacement copies marker 2, the second copies the wrapper
    of marker 1: no position inside them starts the other marker. *)
Lemma replace1_over_marker2 x :
  replace_from marker1 (disabled marker1) 0 (marker2 +:+ x)
  = marker2 +:+ replace_from marker1 (disabled marker1) 0 x.
Proof. unfold marker1, marker2. simpl String.append. copy_chars. reflexivity. Qed.

Lemma replace2_over_disabled1 x :
  replace_from marker2 (disabled marker2) 0 (disabled marker1 +:+ x)
  = disabled marker1 +:+ replace_from marker2 (disabled marker2) 0 x.
Proof.
  unfold marker1, marker2, disabled. simpl String.append. copy_chars.
  reflexivity.
Qed.

Lemma patched_content_unfold t :
  patched_content t
  = replace_from marker2 (disabled marker2) 0
      (replace_from marker1 (disabled marker1) 0 t).
Proof. reflexivity. Qed.

Lemma patched_marker1 r :
  patched_content (marker1 +:+ r) = disabled marker1 +:+ patched_content r.
Proof.
  rewrite !patched_content_unfold.
  rewrite replace_from_hit by discriminate.
  apply replace2_over_disabled1.
Qed.

Lemma patched_marker2 r :
  patched_content (marker2 +:+ r) = disabled marker2 +:+ patched_content r.
Proof.
  rewrite !patched_content_unfold.
  rewrite replace1_over_marker2.
  now rewrite replace_from_hit by discriminate.
Qed.

Lemma patched_char c r :
  startswith marker1 (String c r) = false ->
  startswith marker2 (String c r) = false ->
  patched_content (String c r) = String c (patched_content r).
Proof.
  intros H1 H2. rewrite !patched_content_unfold.
  rewrite (replace_from_miss marker1) by exact H1.
  apply replace_from_miss, not_true_iff_false. intros E.
  rewrite <- (replace_from_miss marker1 (disabled marker1)) in E by exact H1.
  apply (startswith_replace_from marker1 _ marker2 "/"%char) in E;
    [congruence | reflexivity].
Qed.

Lemma patched_wraps_len n :
  forall t, String.length t <= n -> wraps t (patched_content t).
Proof.
  induction n as [|n IH]; intros t Hn.
  - destruct t; [apply wraps_end | simpl in Hn; lia].
  - destruct t as [|c r]; [apply wraps_end |].
    destruct (startswith marker1 (String c r)) eqn:E1.
    { destruct (startswith_split _ _ E1) as [r1 Hr1]. rewrite Hr1.
      rewrite patched_marker1.
      apply (wraps_marker marker1); [simpl; auto |].
      apply IH. rewrite Hr1, length_app in Hn. simpl in Hn. lia. }
    destruct (startswith marker2 (String c r)) eqn:E2.
    { destruct (startswith_split _ _ E2) as [r2 Hr2]. rewrite Hr2.
      rewrite patched_marker2.
      apply (wraps_marker marker2); [simpl; auto |].
      apply IH. rewrite Hr2, length_app in Hn. simpl in Hn. lia. }
    rewrite patched_char by assumption.
    apply wraps_char.
    + intros m Hm. destruct (marker_cases m Hm); subst; assumption.
    + apply IH. simpl in Hn. lia.
Qed.

Lemma patched_wraps t : wraps t (patched_content t).
Proof. apply (patched_wraps_len (String.length t)). lia. Qed.

(** Occurrences of a marker across a marker and across its wrapper. *)
Lemma occurrences_marker m m' r :
  In m markers -> In m' markers ->
  occurrences m (m' +:+ r) = (if String.eqb m m' then 1 else 0) + occurrences m r.
Proof.
  intros Hm Hm'.
  destruct (marker_cases _ Hm); destruct (marker_cases _ Hm'); subst;
    reflexivity.
Qed.

Lemma occurrences_disabled m m' r :
  In m markers -> In m' markers ->
  occurrences m ("/*" +:+ m' +:+ "*/" +:+ r)
  = (if String.eqb m m' then 1 else 0) + occurrences m r.
Proof.
  intros Hm Hm'.
  destruct (marker_cases _ Hm); destruct (marker_cases _ Hm'); subst;
    reflexivity.
Qed.

(** A slash-free pattern starts the wrapped text only if it starts the
    original text. *)
Lemma wraps_startswith p :
  has_char "/" p = false ->
  forall s s', wraps s s' -> startswith p s' = true -> startswith p s = true.
Proof.
  induction p as [|b p IH]; intros Hp s s' W H; [reflexivity |].
  cbn [has_char] in Hp. apply orb_false_iff in Hp as [Hb Hp].
  destruct W as [| m r r' _ _ | c r r' _ W].
  - discriminate.
  - change ("/*" +:+ m +:+ "*/" +:+ r')
      with (String "/" (String "*" (m +:+ "*/" +:+ r'))) in H.
    cbn [startswith] in H. rewrite Ascii.eqb_sym, Hb in H. discriminate.
  - cbn [startswith] in H |- *. apply andb_true_iff in H as [Hbc H].
    rewrite Hbc. cbn [andb]. now apply (IH Hp r r').
Qed.

Lemma wraps_occurrences t t' :
  wraps t t' ->
  forall m, In m markers -> occurrences m t' = occurrences m t.
Proof.
  induction 1 as [| m' r r' Hm' W IH | c r r' Hc W IH]; intros m Hm.
  - reflexivity.
  - rewrite occurrences_disabled, occurrences_marker by assumption.
    now rewrite IH.
  - cbn [occurrences]. rewrite (Hc m Hm), (IH m Hm).
    destruct (startswith m (String c r')) eqn:E; [| reflexivity].
    apply (wraps_startswith m) with (s := String c r) in E.
    + rewrite (Hc m Hm) in E. discriminate.
    + destruct (marker_cases _ Hm); subst; reflexivity.
    + now apply wraps_char.
Qed.

Lemma marker_count_marker m r :
  In m markers -> marker_count (m +:+ r) = 1 + marker_count r.
Proof.
  intros Hm. unfold marker_count.
  rewrite !occurrences_marker by (simpl; auto).
  destruct (marker_cases _ Hm); subst; simpl; lia.
Qed.

Lemma wraps_length t t' :
  wraps t t' -> String.length t' = String.length t + 4 * marker_count t.
Proof.
  induction 1 as [| m r r' Hm W IH | c r r' Hc W IH].
  - reflexivity.
  - rewrite marker_count_marker by assumption.
    rewrite !length_app, IH. simpl. lia.
  - unfold marker_count in *. cbn [occurrences String.length].
    rewrite (Hc marker1), (Hc marker2) by (simpl; auto). lia.
Qed.

Lemma wraps_unmarked t t' : wraps t t' -> marker_count t = 0 -> t' = t.
Proof.
  induction 1 as [| m r r' Hm W IH | c r r' Hc W IH]; intros H0.
  - reflexivity.
  - rewrite marker_count_marker in H0 by assumption. discriminate.
  - f_equal. apply IH. unfold marker_count in *. cbn [occurrences] in H0. lia.
Qed.

Lemma marker_count_patched t : marker_count (patched_content t) = marker_count t.
Proof.
  unfold marker_count.
  now rewrite !(wraps_occurrences _ _ (patched_wraps t)) by (simpl; auto).
Qed.

End PatchFacts.

(** ** Properties of the script patch *)


(** C1, as stated, fails: the output of a first run is wrapped again by a
    second run. *)
Lemma patched_content_rewraps :
  patched_content "checkForUpdates" = "/*checkForUpdates*/"
  /\ patched_content "/*checkForUpdates*/" = "/*/*checkForUpdates*/*/"
  /\ patched_content (patched_content "checkForUpdates")
     <> patched_content "checkForUpdates".
Proof. repeat split. discriminate. Qed.

(** C1, amended. A second run leaves the output of a first run unchanged
    exactly when the original text holds no marker; otherwise every marker
    is wrapped once more, four more characters for each occurrence. *)
Theorem patched_content_twice (t : string) :
  (patched_content (patched_content t) = patched_content t
     <-> marker_count t = 0)
  /\ String.length (patched_content (patched_content t))
     = String.length t + 8 * marker_count t.
Proof.
  pose proof (PatchFacts.wraps_length _ _ (PatchFacts.patched_wraps t)) as L1.
  pose proof (PatchFacts.wraps_length _ _
                (PatchFacts.patched_wraps (patched_content t))) as L2.
  rewrite PatchFacts.marker_count_patched in L2.
  split; [split |].
  - intros E. rewrite E in L2. lia.
  - intros H0. apply PatchFacts.wraps_unmarked.
    + apply PatchFacts.patched_wraps.
    + now rewrite PatchFacts.marker_count_patched.
  - lia.
Qed.

(** ** The permission check *)

Section Permissions.
Variable E : env.

Lemma check_missing p w :
  exists_at w (expanduser E p) = false ->
  check_and_set_permissions E p w = (Ok tt, w).
Proof.
  intros H. unfold check_and_set_permissions, bind, path_exists.
  now rewrite H.
Qed.

Lemma writable_exists w p : writable_at w p = true -> exists_at w p = true.
Proof.
  unfold writable_at, exists_at. now destruct (nodes w !! p).
Qed.

Lemma check_writable p w :
  writable_at w (expanduser E p) = true ->
  check_and_set_permissions E p w = (Ok tt, w).
Proof.
  intros H. pose proof (writable_exists _ _ H) as Hex.
  unfold check_and_set_permissions, bind, path_exists, try_except, access_w.
  rewrite Hex. cbn [negb]. now rewrite H.
Qed.

End Permissions.

(** C6. On a path that does not exist [check_and_set_permissions] returns
    without doing anything; on an existing path that is already writable it
    returns as well, and no escalation command is run: in both cases the
    world after the call is the world before it. *)
Theorem check_and_set_permissions_common_path (E : env) (p : string) (w : world) :
  exists_at w (expanduser E p) = false \/ writable_at w (expanduser E p) = true ->
  check_and_set_permissions E p w = (Ok tt, w)
  /\ escalations (trace (snd (check_and_set_permissions E p w)))
     = escalations (trace w).
Proof.
  intros H.
  assert (check_and_set_permissions E p w = (Ok tt, w)) as ->.
  { destruct H; [now apply check_missing | now apply check_writable]. }
  split; reflexivity.
Qed.

(** ** Reasoning about runs

    The rules below follow the control flow of [bind] and [try_except]. *)

Section Rules.
Context {A B : Type}.

Lemma after_weaken (m : M A) w (Q Q' : result A -> world -> Prop) :
  after m w Q -> (forall r w', Q r w' -> Q' r w') -> after m w Q'.
Proof. unfold after. auto. Qed.

Lemma after_ret (a : A) w Q : Q (Ok a) w -> after (ret a) w Q.
Proof. auto. Qed.

Lemma after_raise e w (Q : result A -> world -> Prop) :
  Q (Raised e) w -> after (raise e) w Q.
Proof. auto. Qed.

Lemma after_exit c w (Q : result A -> world -> Prop) :
  Q (Exited c) w -> after (exit c) w Q.
Proof. auto. Qed.

Lemma after_bind (m : M A) (k : A -> M B) w (Q : result B -> world -> Prop) :
  after m w (fun r w1 =>
    match r with
    | Ok a => after (k a) w1 Q
    | Raised e => Q (Raised e) w1
    | Exited c => Q (Exited c) w1
    end) ->
  after (bind m k) w Q.
Proof.
  unfold after, bind. destruct (m w) as [[a | e | c] w1]; auto.
Qed.

Lemma after_try (body handler : M A) (caught : exn -> bool) w
    (Q : result A -> world -> Prop) :
  after body w (fun r w1 =>
    match r with
    | Raised e => if caught e then after handler w1 Q else Q (Raised e) w1
    | _ => Q r w1
    end) ->
  after (try_except body caught handler) w Q.
Proof.
  unfold after, try_except. destruct (body w) as [[a | e | c] w1]; auto.
  simpl. destruct (caught e); auto.
Qed.

End Rules.

Lemma after_emit e w Q :
  Q (Ok tt) (World (nodes w) (trace w ++ [e]) (draws w) (wdm w)) -> after (emit e) w Q.
Proof. auto. Qed.

Lemma after_of_option {A} (o : option A) e w Q :
  match o with Some a => Q (Ok a) w | None => Q (Raised e) w end ->
  after (of_option o e) w Q.
Proof. destruct o; auto. Qed.

Section Respects.
Variable R : world -> world -> Prop.
Hypothesis R_refl : forall w, R w w.
Hypothesis R_trans : forall w1 w2 w3, R w1 w2 -> R w2 w3 -> R w1 w3.

Lemma respects_ret {A} (a : A) : respects R (ret a).
Proof. intros w. apply R_refl. Qed.

Lemma respects_raise {A} e : respects R (@raise A e).
Proof. intros w. apply R_refl. Qed.

Lemma respects_exit {A} c : respects R (@exit A c).
Proof. intros w. apply R_refl. Qed.

Lemma respects_bind {A B} (m : M A) (k : A -> M B) :
  respects R m -> (forall a, respects R (k a)) -> respects R (bind m k).
Proof.
  intros Hm Hk w. specialize (Hm w). unfold bind.
  destruct (m w) as [[a | e | c] w1]; simpl in *; auto.
  eapply R_trans; [exact Hm | apply Hk].
Qed.

Lemma respects_try {A} (body handler : M A) caught :
  respects R body -> respects R handler ->
  respects R (try_except body caught handler).
Proof.
  intros Hb Hh w. specialize (Hb w). unfold try_except.
  destruct (body w) as [[a | e | c] w1]; simpl in *; auto.
  destruct (caught e); simpl; auto.
  eapply R_trans; [exact Hb | apply Hh].
Qed.

Lemma respects_if {A} (b : bool) (m1 m2 : M A) :
  respects R m1 -> respects R m2 -> respects R (if b then m1 else m2).
Proof. now destruct b. Qed.

Lemma respects_of_option {A} (o : option A) e : respects R (of_option o e).
Proof. destruct o; [apply respects_ret | apply respects_raise]. Qed.

Lemma respects_path_exists p : respects R (path_exists p).
Proof. intros w. apply R_refl. Qed.

Lemma respects_access_w p : respects R (access_w p).
Proof. intros w. apply R_refl. Qed.

Lemma respects_read_text E p : respects R (read_text E p).
Proof.
  intros w. unfold read_text.
  destruct (nodes w !! p) as [[c ok | ok] |]; simpl; auto.
  destruct (read_fault E p); simpl; auto.
Qed.

End Respects.

(** *** Rules for the primitive operations *)

Lemma after_path_exists p w Q :
  Q (Ok (exists_at w p)) w -> after (path_exists p) w Q.
Proof. auto. Qed.

Lemma after_access_w p w Q :
  Q (Ok (writable_at w p)) w -> after (access_w p) w Q.
Proof. auto. Qed.

Lemma after_read_text E p w (Q : result string -> world -> Prop) :
  (forall c, content_at w p = Some c -> read_fault E p = false -> Q (Ok c) w) ->
  (content_at w p = None \/ read_fault E p = true -> Q (Raised OSError) w) ->
  after (read_text E p) w Q.
Proof.
  intros Hok Hfail. unfold after, read_text, content_at in *.
  destruct (nodes w !! p) as [[c ok | ok] |]; simpl; auto.
  destruct (read_fault E p); simpl; auto.
Qed.

Lemma after_write_text E p s w (Q : result unit -> world -> Prop) :
  (can_open_w w p = true -> write_fault E p <> OpenFails ->
   (forall n, write_fault E p = WriteFails n -> String.length s <= n) ->
   Q (Ok tt) (set_node p (File s true) w)) ->
  (can_open_w w p = false \/ write_fault E p = OpenFails ->
   Q (Raised OSError) w) ->
  (forall n, can_open_w w p = true -> write_fault E p = WriteFails n ->
             n < String.length s ->
             Q (Raised OSError)
               (set_node p (File (String.substring 0 n s) true) w)) ->
  after (write_text E p s) w Q.
Proof.
  intros Hok Hopen Hcut. unfold after, write_text, can_open_w in *.
  destruct (write_fault E p) as [| | n] eqn:F.
  - destruct (nodes w !! p) as [[c [|] | ok] |]; simpl; auto;
      apply Hok; auto; discriminate.
  - simpl. auto.
  - destruct (nodes w !! p) as [[c [|] | ok] |]; simpl; auto;
      (destruct (n <? String.length s) eqn:L; simpl;
       [ apply Nat.ltb_lt in L; apply (Hcut n); auto
       | apply Nat.ltb_ge in L; apply Hok; auto; try discriminate;
         intros n' [= <-]; exact L ]).
Qed.

Lemma after_new_uuid4 E w (Q : result string -> world -> Prop) :
  Q (Ok (PyUuid.to_str (PyUuid.uuid4 (urandom E (draws w)))))
    (World (nodes w) (trace w) (S (draws w)) (wdm w)) ->
  after (new_uuid4 E) w Q.
Proof. auto. Qed.

Lemma after_logger_debug p w (Q : result unit -> world -> Prop) :
  Q (Ok tt) w -> after (logger_debug p) w Q.
Proof. auto. Qed.

Lemma after_respects {A} (R : world -> world -> Prop) (m : M A) w :
  respects R m -> after m w (fun _ w' => R w w').
Proof. intros H. apply H. Qed.

(** *** What a run leaves alone *)

Lemma trace_grows_refl w : trace_grows w w.
Proof. unfold trace_grows. reflexivity. Qed.

Lemma trace_grows_trans w1 w2 w3 :
  trace_grows w1 w2 -> trace_grows w2 w3 -> trace_grows w1 w3.
Proof. unfold trace_grows. intros. etrans; eauto. Qed.

Lemma keeps_content_refl q w : keeps_content q w w.
Proof. reflexivity. Qed.

Lemma keeps_content_trans q w1 w2 w3 :
  keeps_content q w1 w2 -> keeps_content q w2 w3 -> keeps_content q w1 w3.
Proof. unfold keeps_content. congruence. Qed.

Create HintDb runs.

#[local] Hint Resolve trace_grows_refl trace_grows_trans keeps_content_refl
  keeps_content_trans : runs.

#[local] Hint Resolve respects_ret respects_raise respects_exit respects_bind
  respects_try respects_if respects_of_option respects_path_exists
  respects_access_w respects_read_text : runs.

(** The steps respect every world relation that the primitive effects
    respect; [W] tells at which paths a write respects it. *)
Section StepsRespect.
Variable E : env.
Variable R : world -> world -> Prop.
Variable W : string -> Prop.
Hypothesis R_refl : forall w, R w w.
Hypothesis R_trans : forall w1 w2 w3, R w1 w2 -> R w2 w3 -> R w1 w3.
Hypothesis R_emit : forall e, respects R (emit e).
Hypothesis R_draw : respects R (new_uuid4 E).
Hypothesis R_call : forall argv p, respects R (subprocess_check_call E argv p).
Hypothesis R_write : forall p s, W p -> respects R (write_text E p s).
Hypothesis R_install : forall b, respects R (install_driver E b).

Ltac respects_leaf :=
  first
    [ apply R_emit | apply R_draw | apply R_call | apply R_install
    | apply R_write; assumption
    | apply (respects_ret R R_refl)
    | apply (respects_raise R R_refl)
    | apply (respects_exit R R_refl)
    | apply (respects_of_option R R_refl)
    | apply (respects_path_exists R R_refl)
    | apply (respects_access_w R R_refl)
    | apply (respects_read_text R R_refl)
    | match goal with H : forall _, respects R _ |- _ => apply H end
    | match goal with H : forall _ _, respects R _ |- _ => apply H end ].

Ltac respects_steps :=
  repeat first
    [ respects_leaf
    | apply (respects_bind R R_trans); [| intros ?]
    | apply (respects_try R R_trans)
    | apply respects_if ].

Lemma respects_logger_debug p : respects R (logger_debug p).
Proof. unfold logger_debug. simpl. apply (respects_ret R R_refl). Qed.

Lemma respects_check_and_set_permissions p :
  respects R (check_and_set_permissions E p).
Proof.
  pose proof respects_logger_debug.
  unfold check_and_set_permissions. respects_steps.
Qed.

Lemma respects_name_contains sub proc : respects R (name_contains sub proc).
Proof. unfold name_contains. destruct (name proc); respects_steps. Qed.

Lemma respects_proc_terminate proc : respects R (proc_terminate E proc).
Proof.
  unfold proc_terminate. destruct (terminate_call E (pid proc));
    respects_steps.
Qed.

Lemma respects_reap procs found : respects R (reap E procs found).
Proof.
  pose proof respects_name_contains. pose proof respects_proc_terminate.
  revert found. induction procs as [|proc rest IH]; intros found; simpl.
  - apply (respects_ret R R_refl).
  - respects_steps.
Qed.

Lemma respects_check_cursor_process : respects R (check_cursor_process E).
Proof.
  pose proof respects_reap. unfold check_cursor_process. respects_steps.
Qed.

Lemma respects_reset_machine_id cp :
  W (machine_id_path E cp) -> respects R (reset_machine_id E cp).
Proof.
  intros HW. pose proof respects_check_and_set_permissions.
  unfold reset_machine_id. respects_steps.
Qed.

Lemma respects_modify_product_json cp tl :
  W (product_json_path E cp) -> respects R (modify_product_json E cp tl).
Proof.
  intros HW. pose proof respects_check_and_set_permissions.
  unfold modify_product_json. respects_steps.
Qed.

Lemma respects_patch_workbench cp v :
  W (workbench_path E cp v) -> respects R (patch_workbench E cp v).
Proof.
  intros HW. pose proof respects_check_and_set_permissions.
  unfold patch_workbench. respects_steps.
Qed.

Lemma respects_start_driver b managed :
  respects R (start_driver E b managed).
Proof. unfold start_driver. respects_steps. Qed.

Lemma respects_driver_get url : respects R (driver_get E url).
Proof. unfold driver_get. respects_steps. Qed.

Lemma respects_await_enter : respects R (await_enter E).
Proof. unfold await_enter. respects_steps. Qed.

Lemma respects_driver_quit : respects R (driver_quit E).
Proof. unfold driver_quit. respects_steps. Qed.

Lemma respects_open_login_page b : respects R (open_login_page E b).
Proof.
  pose proof respects_start_driver. pose proof respects_driver_get.
  unfold open_login_page.
  respects_steps; first [apply respects_await_enter | apply respects_driver_quit].
Qed.

End StepsRespect.

(** *** The trace only grows *)

Lemma trace_grows_same w w' : trace w' = trace w -> trace_grows w w'.
Proof. unfold trace_grows. now intros ->. Qed.

Lemma trace_grows_emit w e ns k c :
  trace_grows w (World ns (trace w ++ [e]) k c).
Proof. now exists [e]. Qed.

Section TraceGrows.
Variable E : env.

Lemma emit_trace_grows e : respects trace_grows (emit e).
Proof. intros w. apply trace_grows_emit. Qed.

Lemma draw_trace_grows : respects trace_grows (new_uuid4 E).
Proof. intros w. now apply trace_grows_same. Qed.

Lemma write_trace_grows p s : respects trace_grows (write_text E p s).
Proof.
  intros w. apply (after_write_text E p s w (fun _ w' => trace_grows w w'));
    intros; now apply trace_grows_same.
Qed.

Lemma call_trace_grows argv p :
  respects trace_grows (subprocess_check_call E argv p).
Proof.
  intros w. unfold subprocess_check_call, bind, emit.
  destruct (check_call E argv); simpl; try apply trace_grows_emit.
  destruct (grants E p); [| apply trace_grows_emit].
  destruct (_ !! p) as [[c ok | ok] |]; apply trace_grows_emit.
Qed.

Lemma install_trace_grows b : respects trace_grows (install_driver E b).
Proof.
  intros w. unfold install_driver.
  destruct (install_fault E b); now apply trace_grows_same.
Qed.

End TraceGrows.

Section StepsTraceGrow.
Variable E : env.

#[local] Hint Resolve emit_trace_grows draw_trace_grows write_trace_grows
  call_trace_grows install_trace_grows : runs.

Lemma check_cursor_process_trace_grows :
  respects trace_grows (check_cursor_process E).
Proof. apply respects_check_cursor_process; eauto with runs. Qed.

Lemma reset_machine_id_trace_grows cp :
  respects trace_grows (reset_machine_id E cp).
Proof.
  apply respects_reset_machine_id with (W := fun _ => True);
    eauto with runs.
Qed.

Lemma modify_product_json_trace_grows cp tl :
  respects trace_grows (modify_product_json E cp tl).
Proof.
  apply respects_modify_product_json with (W := fun _ => True);
    eauto with runs.
Qed.

Lemma patch_workbench_trace_grows cp v :
  respects trace_grows (patch_workbench E cp v).
Proof.
  apply respects_patch_workbench with (W := fun _ => True);
    eauto with runs.
Qed.

Lemma open_login_page_trace_grows b :
  respects trace_grows (open_login_page E b).
Proof. apply respects_open_login_page; eauto with runs. Qed.

End StepsTraceGrow.

(** *** Files that a step does not write keep their text *)

Section StepsKeepContent.
Variable E : env.
Variable q : string.

Lemma content_at_set_node_ne p n w :
  p <> q -> content_at (set_node p n w) q = content_at w q.
Proof.
  intros Hne. unfold content_at, set_node. simpl.
  now rewrite lookup_insert_ne.
Qed.

Lemma emit_keeps_content e : respects (keeps_content q) (emit e).
Proof. intros w. reflexivity. Qed.

Lemma draw_keeps_content : respects (keeps_content q) (new_uuid4 E).
Proof. intros w. reflexivity. Qed.

Lemma write_keeps_content p s :
  p <> q -> respects (keeps_content q) (write_text E p s).
Proof.
  intros Hne w.
  apply (after_write_text E p s w (fun _ w' => keeps_content q w w'));
    intros; unfold keeps_content;
    solve [reflexivity | now apply content_at_set_node_ne].
Qed.

(** An escalation changes the permission of its target, not its text. *)
Lemma call_keeps_content argv p :
  respects (keeps_content q) (subprocess_check_call E argv p).
Proof.
  intros w. unfold subprocess_check_call, bind, emit, keeps_content.
  destruct (check_call E argv); simpl; try reflexivity.
  destruct (grants E p); [| reflexivity].
  unfold content_at. simpl.
  destruct (nodes w !! p) as [[c ok | ok] |] eqn:Hp; simpl; try reflexivity.
  - destruct (decide (p = q)) as [-> | Hne].
    + now rewrite lookup_insert_eq, Hp.
    + now rewrite lookup_insert_ne.
  - destruct (decide (p = q)) as [-> | Hne].
    + now rewrite lookup_insert_eq, Hp.
    + now rewrite lookup_insert_ne.
Qed.

(** A driver manager writes its cache, not the script's files. *)
Lemma install_keeps_content b :
  respects (keeps_content q) (install_driver E b).
Proof.
  intros w. unfold install_driver. now destruct (install_fault E b).
Qed.

#[local] Hint Resolve emit_keeps_content draw_keeps_content
  write_keeps_content call_keeps_content install_keeps_content : runs.

Lemma check_and_set_permissions_keeps_content p :
  respects (keeps_content q) (check_and_set_permissions E p).
Proof. apply respects_check_and_set_permissions; eauto with runs. Qed.

Lemma check_cursor_process_keeps_content :
  respects (keeps_content q) (check_cursor_process E).
Proof. apply respects_check_cursor_process; eauto with runs. Qed.

Lemma reset_machine_id_keeps_content cp :
  machine_id_path E cp <> q ->
  respects (keeps_content q) (reset_machine_id E cp).
Proof.
  apply respects_reset_machine_id with (W := fun p => p <> q);
    eauto with runs.
Qed.

Lemma modify_product_json_keeps_content cp tl :
  product_json_path E cp <> q ->
  respects (keeps_content q) (modify_product_json E cp tl).
Proof.
  apply respects_modify_product_json with (W := fun p => p <> q);
    eauto with runs.
Qed.

Lemma patch_workbench_keeps_content cp v :
  workbench_path E cp v <> q ->
  respects (keeps_content q) (patch_workbench E cp v).
Proof.
  apply respects_patch_workbench with (W := fun p => p <> q);
    eauto with runs.
Qed.

Lemma open_login_page_keeps_content b :
  respects (keeps_content q) (open_login_page E b).
Proof. apply respects_open_login_page; eauto with runs. Qed.

End StepsKeepContent.

(** ** Runs given by equations *)

Lemma after_of_run {A} (m : M A) w r w' (Q : result A -> world -> Prop) :
  m w = (r, w') -> Q r w' -> after m w Q.
Proof. unfold after. now intros ->. Qed.

Lemma after_eq {A} (m : M A) w (x : result A * world) :
  after m w (fun r w' => (r, w') = x) -> m w = x.
Proof. unfold after. now destruct (m w). Qed.

Lemma exists_at_World w t d c p :
  exists_at (World (nodes w) t d c) p = exists_at w p.
Proof. reflexivity. Qed.

Lemma content_at_World w t d c p :
  content_at (World (nodes w) t d c) p = content_at w p.
Proof. reflexivity. Qed.

Lemma content_exists w p c : content_at w p = Some c -> exists_at w p = true.
Proof.
  unfold content_at, exists_at. now destruct (nodes w !! p).
Qed.

(** ** The config patch on a missing file *)

(** C8. When [product.json] does not exist, [modify_product_json] returns
    normally, reports the step as skipped and writes nothing: the
    filesystem after the call is the filesystem before it. The path the
    step works on is taken as already expanded. *)
Theorem modify_product_json_missing (E : env) (cp : string) (tl : json)
    (w : world) :
  expanduser E (product_json_path E cp) = product_json_path E cp ->
  exists_at w (product_json_path E cp) = false ->
  modify_product_json E cp tl w
  = (Ok tt,
     World (nodes w)
       (trace w ++ [Progress MsgUpdatingProduct; Progress MsgProductSkipped])
       (draws w) (wdm w))
  /\ nodes (snd (modify_product_json E cp tl w)) = nodes w.
Proof.
  intros Hexp Hmiss.
  assert (modify_product_json E cp tl w
          = (Ok tt,
             World (nodes w)
               (trace w ++ [Progress MsgUpdatingProduct;
                            Progress MsgProductSkipped])
               (draws w) (wdm w))) as ->; [| now split].
  apply after_eq. unfold modify_product_json.
  apply after_bind.
  eapply after_of_run; [apply check_missing; now rewrite Hexp |].
  apply after_bind, after_emit.
  apply after_try, after_bind, after_path_exists.
  rewrite exists_at_World, Hmiss.
  apply after_emit. simpl. now rewrite <- List.app_assoc.
Qed.

(** ** Facts about dictionaries *)

Module PyDictFacts.
Import PyDict.

Lemma get_set_same k v d : get k (set k v d) = Some v.
Proof.
  induction d as [|[k' v'] d IH]; simpl.
  - now rewrite String.eqb_refl.
  - destruct (String.eqb k k') eqn:E; simpl.
    + now rewrite String.eqb_refl.
    + now rewrite E.
Qed.

Lemma get_set_other k k' v d : k <> k' -> get k' (set k v d) = get k' d.
Proof.
  intros Hne. induction d as [|[k0 v0] d IH]; simpl.
  - apply not_eq_sym, String.eqb_neq in Hne. now rewrite Hne.
  - destruct (String.eqb k k0) eqn:E; simpl.
    + apply String.eqb_eq in E. subst k0.
      apply not_eq_sym, String.eqb_neq in Hne. now rewrite Hne.
    + now rewrite IH.
Qed.

(** An assignment keeps the order of the keys; a new key goes last. *)
Lemma keys_set k v d :
  keys (set k v d) = if mem k d then keys d else (keys d ++ [k])%list.
Proof.
  unfold mem, keys. induction d as [|[k' v'] d IH]; simpl; [reflexivity |].
  destruct (String.eqb k k') eqn:E; simpl.
  - apply String.eqb_eq in E. now subst.
  - rewrite IH. now destruct (get k d).
Qed.

Lemma mem_set_other k k' v d : k <> k' -> mem k' (set k v d) = mem k' d.
Proof. intros Hne. unfold mem. now rewrite get_set_other. Qed.

End PyDictFacts.

(** ** The config patch on an existing document *)

Section ConfigPatch.
Variable E : env.

Lemma read_text_ok p w c :
  content_at w p = Some c -> read_fault E p = false ->
  read_text E p w = (Ok c, w).
Proof.
  unfold content_at, read_text. intros Hc ->.
  destruct (nodes w !! p) as [[c' ok | ok] |]; congruence.
Qed.

Lemma write_text_ok p s w :
  can_open_w w p = true -> write_fault E p = NoFault ->
  write_text E p s w = (Ok tt, set_node p (File s true) w).
Proof.
  unfold can_open_w, write_text. intros Ho ->.
  destruct (nodes w !! p) as [[c' [|] | ok] |]; congruence.
Qed.

Lemma writable_file_can_open w p c :
  content_at w p = Some c -> writable_at w p = true -> can_open_w w p = true.
Proof.
  unfold content_at, writable_at, can_open_w.
  destruct (nodes w !! p) as [[c' ok | ok] |]; congruence.
Qed.

Lemma modify_product_json_run cp tl w text d :
  let p := product_json_path E cp in
  expanduser E p = p ->
  content_at w p = Some text ->
  writable_at w p = true ->
  read_fault E p = false ->
  write_fault E p = NoFault ->
  json_load E text = Some (JDict d) ->
  modify_product_json E cp tl w
  = (Ok tt,
     World (<[p := File (json_dump E (JDict (patched_document tl d))) true]>
              (nodes w))
       (trace w ++ [Progress MsgUpdatingProduct; Progress (MsgProductUpdated tl)])
       (draws w) (wdm w)).
Proof.
  intros p Hexp Hc Hw Hrf Hwf Hload.
  apply after_eq. unfold modify_product_json. fold p.
  apply after_bind.
  eapply after_of_run; [apply check_writable; now rewrite Hexp |].
  apply after_bind, after_emit.
  apply after_try, after_bind, after_path_exists.
  rewrite exists_at_World, (content_exists _ _ _ Hc).
  apply after_bind.
  eapply after_of_run; [apply read_text_ok; [exact Hc | exact Hrf] |].
  apply after_bind, after_of_option. rewrite Hload.
  apply after_bind, after_of_option. cbn [setitem].
  apply after_bind, after_of_option. cbn [setitem].
  apply after_bind.
  eapply after_of_run.
  { apply write_text_ok; [| exact Hwf].
    now apply (writable_file_can_open _ _ text). }
  apply after_emit. unfold set_node, patched_document. simpl.
  now rewrite <- List.app_assoc.
Qed.

End ConfigPatch.

(** C2. On an existing, readable and writable [product.json] whose text
    parses to an object, [modify_product_json] returns normally and the
    file then holds the serialisation of a document in which [tokenLimit]
    is the given limit, [premiumModels] is the fixed list and every other
    key has the value it had; the keys keep their order, and the two keys
    are appended when they were absent. *)
Theorem modify_product_json_read_modify_write (E : env) (cp : string)
    (tl : json) (w : world) (text : string) (d : list (string * json)) :
  let p := product_json_path E cp in
  expanduser E p = p ->
  content_at w p = Some text ->
  writable_at w p = true ->
  read_fault E p = false ->
  write_fault E p = NoFault ->
  json_load E text = Some (JDict d) ->
  let d' := patched_document tl d in
  fst (modify_product_json E cp tl w) = Ok tt
  /\ content_at (snd (modify_product_json E cp tl w)) p
     = Some (json_dump E (JDict d'))
  /\ PyDict.get "tokenLimit" d' = Some tl
  /\ PyDict.get "premiumModels" d' = Some premium_models
  /\ (forall k, k <> "tokenLimit" -> k <> "premiumModels" ->
                PyDict.get k d' = PyDict.get k d)
  /\ PyDict.keys d'
     = (PyDict.keys d
        ++ (if PyDict.mem "tokenLimit" d then [] else ["tokenLimit"])
        ++ (if PyDict.mem "premiumModels" d then [] else ["premiumModels"]))%list.
Proof.
  intros p Hexp Hc Hw Hrf Hwf Hload d'.
  rewrite (modify_product_json_run E cp tl w text d) by assumption.
  fold p. split; [reflexivity |]. split.
  { unfold content_at. simpl. now rewrite lookup_insert_eq. }
  unfold d', patched_document. split.
  { rewrite PyDictFacts.get_set_other by discriminate.
    apply PyDictFacts.get_set_same. }
  split; [apply PyDictFacts.get_set_same |]. split.
  { intros k H1 H2.
    rewrite PyDictFacts.get_set_other by congruence.
    now rewrite PyDictFacts.get_set_other by congruence. }
  rewrite !PyDictFacts.keys_set.
  rewrite PyDictFacts.mem_set_other by discriminate.
  destruct (PyDict.mem "tokenLimit" d), (PyDict.mem "premiumModels" d);
    simpl; rewrite ?List.app_nil_r, <- ?List.app_assoc; reflexivity.
Qed.

(** C10. Whatever [premiumModels] held before (nothing, a value that is no
    list, a longer list) and whatever the token limit is, the document that
    [modify_product_json] writes maps [premiumModels] to the list of
    exactly the three model names. *)
Theorem modify_product_json_premium_models (E : env) (cp : string)
    (tl : json) (w : world) (text : string) (d : list (string * json)) :
  let p := product_json_path E cp in
  expanduser E p = p ->
  content_at w p = Some text ->
  writable_at w p = true ->
  read_fault E p = false ->
  write_fault E p = NoFault ->
  json_load E text = Some (JDict d) ->
  exists d',
    modify_product_json E cp tl w
    = (Ok tt,
       World (<[p := File (json_dump E (JDict d')) true]> (nodes w))
         (trace w ++ [Progress MsgUpdatingProduct;
                      Progress (MsgProductUpdated tl)])
         (draws w) (wdm w))
    /\ PyDict.get "premiumModels" d'
       = Some (JList [JStr "gpt-4o-mini"; JStr "gpt-4"; JStr "claude-3.5-sonnet"]).
Proof.
  intros p Hexp Hc Hw Hrf Hwf Hload.
  exists (patched_document tl d). split.
  - now apply (modify_product_json_run E cp tl w text d).
  - apply PyDictFacts.get_set_same.
Qed.

(** ** Facts about the UUID text *)

Module PyUuidFacts.
Import PyUuid.
Local Open Scope N_scope.







Lemma hex_length k n : String.length (hex k n) = k.
Proof. induction k as [|k IH]; simpl; [reflexivity | now rewrite IH]. Qed.





End PyUuidFacts.

(** ** The identifier reset *)

Section Reset.
Variable E : env.



End Reset.



(** ** The process reaper *)

Lemma with_events_nil w : with_events w [] = w.
Proof. unfold with_events. rewrite List.app_nil_r. now destruct w. Qed.

Lemma with_events_app w evs1 evs2 :
  with_events (with_events w evs1) evs2 = with_events w (evs1 ++ evs2).
Proof.
  unfold with_events. cbn [nodes trace draws wdm].
  now rewrite <- List.app_assoc.
Qed.

Lemma fails_on_match E proc :
  fails_on E proc = None ->
  name_contains "Cursor" proc = ret (is_match proc)
  /\ (is_match proc = true ->
      proc_terminate E proc = emit (Terminate (pid proc))).
Proof.
  unfold fails_on, name_contains, is_match, proc_terminate.
  destruct (name proc) as [n |]; [| discriminate].
  destruct (contains "Cursor" n); [| now split].
  destruct (terminate_call E (pid proc)); try discriminate. now split.
Qed.

Lemma reap_run E procs : forall found w,
  reap E procs found w
  = (match snd (reaped E procs) with
     | None => Ok (found || negb (is_nil (matching (fst (reaped E procs)))))
     | Some e => Raised e
     end,
     with_events w (flat_map reap_events (matching (fst (reaped E procs))))).
Proof.
  induction procs as [|proc rest IH]; intros found w.
  - cbn. unfold ret. now rewrite orb_false_r, with_events_nil.
  - cbn [reap reaped].
    destruct (fails_on E proc) as [e |] eqn:Hf.
    + cbn [fst snd matching List.filter flat_map]. rewrite with_events_nil.
      unfold fails_on in Hf. unfold bind, name_contains.
      destruct (name proc) as [n |]; [| now injection Hf as <-].
      unfold ret. destruct (contains "Cursor" n); [| discriminate].
      unfold proc_terminate.
      destruct (terminate_call E (pid proc)); try discriminate;
        now injection Hf as <-.
    + destruct (fails_on_match E proc Hf) as [Hn Ht].
      cbn [fst snd matching List.filter].
      unfold bind at 1. rewrite Hn. unfold ret at 1.
      destruct (is_match proc) eqn:Hm.
      * rewrite (Ht eq_refl). apply after_eq.
        apply after_bind, after_emit. apply after_bind, after_emit.
        apply after_bind, after_emit.
        eapply after_of_run; [apply IH |].
        cbn [is_nil negb flat_map]. rewrite orb_true_r.
        unfold with_events, reap_events. cbn [nodes trace draws wdm flat_map].
        rewrite <- !List.app_assoc. reflexivity.
      * apply IH.
Qed.


Lemma reaped_none E procs :
  snd (reaped E procs) = None -> fst (reaped E procs) = procs.
Proof.
  induction procs as [|proc rest IH]; [reflexivity |].
  cbn [reaped]. destruct (fails_on E proc); [discriminate |].
  cbn [fst snd]. intros H. now rewrite IH.
Qed.

Lemma reaped_incl E procs proc :
  In proc (fst (reaped E procs)) ->
  In proc procs /\ fails_on E proc = None.
Proof.
  induction procs as [|proc0 rest IH]; [contradiction |].
  cbn [reaped]. destruct (fails_on E proc0) eqn:Hf; [contradiction |].
  cbn [fst]. intros [<- | H]; [split; [now left | exact Hf] |].
  destruct (IH H). split; [now right | assumption].
Qed.

Lemma reaped_failure E procs e :
  snd (reaped E procs) = Some e ->
  exists proc, In proc procs /\ fails_on E proc = Some e.
Proof.
  induction procs as [|proc rest IH]; [discriminate |].
  cbn [reaped]. destruct (fails_on E proc) as [e0 |] eqn:Hf; cbn [snd].
  - intros [= <-]. exists proc. split; [now left | exact Hf].
  - intros H. destruct (IH H) as (proc' & Hin & Hf').
    exists proc'. split; [now right | exact Hf'].
Qed.

Lemma fails_on_cases E proc e :
  fails_on E proc = Some e ->
  e = TypeError \/ e = NoSuchProcess \/ e = AccessDenied.
Proof.
  unfold fails_on. destruct (name proc) as [n |]; [| intros [= <-]; auto].
  destruct (contains "Cursor" n); [| discriminate].
  destruct (terminate_call E (pid proc)); intros [= <-]; auto.
Qed.

Lemma terminated_reap_events procs :
  terminated (flat_map reap_events procs) = map pid procs.
Proof. induction procs as [|p l IH]; simpl; [reflexivity | now rewrite IH]. Qed.


Lemma terminated_app t1 t2 :
  terminated (t1 ++ t2) = (terminated t1 ++ terminated t2)%list.
Proof. apply flat_map_app. Qed.


Lemma check_cursor_process_run E w :
  let asked := matching (fst (reaped E (process_iter E))) in
  let events :=
    ([Progress MsgCheckingProcesses] ++ flat_map reap_events asked)%list in
  let closing := Progress (if is_nil asked then MsgNoProcessFound
                           else MsgProcessesChecked) in
  check_cursor_process E w
  = match snd (reaped E (process_iter E)) with
    | None =>
        (Ok tt,
         World (nodes w) (trace w ++ events ++ [closing]) (draws w) (wdm w))
    | Some e =>
        (Raised e, World (nodes w) (trace w ++ events) (draws w) (wdm w))
    end.
Proof.
  intros asked events closing.
  apply after_eq. unfold check_cursor_process.
  apply after_bind, after_emit. apply after_bind.
  eapply after_of_run; [apply reap_run |].
  fold asked. unfold with_events. cbn [nodes trace draws wdm].
  destruct (snd (reaped E (process_iter E))) as [e |].
  - unfold events. now rewrite <- List.app_assoc.
  - apply after_emit. cbn [nodes trace draws wdm orb].
    unfold events, closing. rewrite <- !List.app_assoc.
    now destruct (is_nil asked).
Qed.


(** ** What a failed patch leaves in its file *)

Section FailedPatch.
Variable E : env.

Lemma content_at_set_node p n w :
  content_at (set_node p n w) p
  = match n with File c _ => Some c | Dir _ => None end.
Proof. unfold content_at, set_node. simpl. now rewrite lookup_insert_eq. Qed.

Ltac after_check q K :=
  apply after_bind;
  eapply after_weaken;
    [ apply (after_respects (keeps_content q)),
        check_and_set_permissions_keeps_content |];
  intros [[] | e | c] w1 K; cbv beta iota;
    [ apply after_bind, after_emit | ..].

Ltac after_handler :=
  cbn [any_exception]; apply after_bind, after_emit; apply after_exit.

Lemma modify_product_json_failure cp tl w :
  let p := product_json_path E cp in
  after (modify_product_json E cp tl) w (fun r w' =>
    r = Ok tt
    \/ content_at w' p = content_at w p
    \/ exists text d,
         content_at w p = Some text /\ json_load E text = Some (JDict d)
         /\ cut_short E p (json_dump E (JDict (patched_document tl d))) w').
Proof.
  intros p. unfold modify_product_json. fold p.
  after_check p K; [| right; left; exact K ..].
  apply after_try, after_bind, after_path_exists.
  destruct (exists_at _ p); [| apply after_emit; now left].
  apply after_bind, after_read_text;
    [| intros _; after_handler; right; left; exact K].
  intros text Htext _. rewrite content_at_World, K in Htext.
  apply after_bind, after_of_option.
  destruct (json_load E text) as [data |] eqn:Hload;
    [| after_handler; right; left; exact K].
  apply after_bind, after_of_option.
  destruct data as [| b | z | f | s | l | d]; cbn [setitem];
    try (after_handler; right; left; exact K).
  apply after_bind, after_of_option. cbn [setitem].
  apply after_bind, after_write_text.
  - intros _ _ _. apply after_emit. now left.
  - intros _. after_handler. right; left; exact K.
  - intros n _ Hf Hn. after_handler. right; right.
    exists text, d. split; [exact Htext |]. split; [exact Hload |].
    exists n. split; [exact Hf |]. split; [exact Hn |].
    rewrite content_at_World. apply (content_at_set_node p (File _ true)).
Qed.

Lemma patch_workbench_failure cp v w :
  let p := workbench_path E cp v in
  after (patch_workbench E cp v) w (fun r w' =>
    r = Ok tt
    \/ content_at w' p = content_at w p
    \/ exists content,
         content_at w p = Some content
         /\ cut_short E p (patched_content content) w').
Proof.
  intros p. unfold patch_workbench. fold p.
  after_check p K; [| right; left; exact K ..].
  apply after_try, after_bind, after_path_exists.
  destruct (exists_at _ p); [| apply after_emit; now left].
  apply after_bind, after_read_text;
    [| intros _; after_handler; right; left; exact K].
  intros content Hc _. rewrite content_at_World, K in Hc.
  apply after_bind, after_write_text.
  - intros _ _ _. apply after_emit. now left.
  - intros _. after_handler. right; left; exact K.
  - intros n _ Hf Hn. after_handler. right; right.
    exists content. split; [exact Hc |].
    exists n. split; [exact Hf |]. split; [exact Hn |].
    rewrite content_at_World. apply (content_at_set_node p (File _ true)).
Qed.

End FailedPatch.

(** C3, amended. When the config patch or the script patch does not return
    normally, its file either holds the text it held before (the failure
    came before the file was opened for writing) or holds a proper prefix
    of the new text (the write was cut: the file had been truncated when it
    was opened). *)
Theorem failed_patch_prior_or_prefix (E : env) (cp v : string) (tl : json)
    (w : world) :
  (fst (modify_product_json E cp tl w) <> Ok tt ->
   let p := product_json_path E cp in
   let w' := snd (modify_product_json E cp tl w) in
   content_at w' p = content_at w p
   \/ exists text d,
        content_at w p = Some text /\ json_load E text = Some (JDict d)
        /\ cut_short E p (json_dump E (JDict (patched_document tl d))) w')
  /\ (fst (patch_workbench E cp v w) <> Ok tt ->
      let p := workbench_path E cp v in
      let w' := snd (patch_workbench E cp v w) in
      content_at w' p = content_at w p
      \/ exists content,
           content_at w p = Some content
           /\ cut_short E p (patched_content content) w').
Proof.
  split; intros Hfail p w'.
  - destruct (modify_product_json_failure E cp tl w) as [H | H];
      [contradiction | exact H].
  - destruct (patch_workbench_failure E cp v w) as [H | H];
      [contradiction | exact H].
Qed.

(** ** The order of the steps *)

Section InOrder.
Variable run : step -> M unit.

Lemma seq_all_in_order ss : forall w,
  exists done,
    runs_in_order run ss w done
      (fst (seq_all (map run ss) w)) (snd (seq_all (map run ss) w)).
Proof.
  induction ss as [|s ss IH]; intros w.
  - exists []. apply rio_done.
  - cbn [map seq_all]. unfold bind at 1 2.
    destruct (run s w) as [[[] | e | c] w1] eqn:Hs.
    + destruct (IH w1) as [done Hd]. exists ((s, w1) :: done).
      now apply rio_next.
    + exists []. now apply rio_stop.
    + exists []. now apply rio_stop.
Qed.

Lemma rio_prefix ss w done r w' :
  runs_in_order run ss w done r w' -> map fst done `prefix_of` ss.
Proof.
  induction 1 as [w | s ss w w1 done r w' Hs _ IH | s ss w r w' Hs Hr].
  - reflexivity.
  - simpl. now apply prefix_cons.
  - apply prefix_nil.
Qed.

Lemma rio_all_done ss w done r w' :
  runs_in_order run ss w done r w' -> (r = Ok tt <-> map fst done = ss).
Proof.
  induction 1 as [w | s ss w w1 done r w' Hs _ IH | s ss w r w' Hs Hr].
  - split; reflexivity.
  - simpl. rewrite IH. split; [now intros -> | now intros [= ->]].
  - split; [contradiction | discriminate].
Qed.

(** A world relation that the steps respect holds between the start and
    the end of the run. *)
Lemma rio_respects (R : world -> world -> Prop) (P : step -> Prop) :
  (forall w, R w w) ->
  (forall w1 w2 w3, R w1 w2 -> R w2 w3 -> R w1 w3) ->
  (forall s, P s -> respects R (run s)) ->
  forall ss w done r w',
    runs_in_order run ss w done r w' -> Forall P ss -> R w w'.
Proof.
  intros Hrefl Htrans Hrun.
  induction 1 as [w | s ss w w1 done r w' Hs _ IH | s ss w r w' Hs Hr];
    intros HP.
  - apply Hrefl.
  - inversion HP as [| ? ? HPs HPss]; subst.
    apply Htrans with w1; [| now apply IH].
    pose proof (Hrun s HPs w) as H. now rewrite Hs in H.
  - inversion HP as [| ? ? HPs HPss]; subst.
    pose proof (Hrun s HPs w) as H. now rewrite Hs in H.
Qed.

(** The same, from the world that the [i]-th step left. *)
Lemma rio_respects_after (R : world -> world -> Prop) (P : step -> Prop) :
  (forall w, R w w) ->
  (forall w1 w2 w3, R w1 w2 -> R w2 w3 -> R w1 w3) ->
  (forall s, P s -> respects R (run s)) ->
  forall ss w done r w',
    runs_in_order run ss w done r w' ->
    forall i s ws, done !! i = Some (s, ws) ->
                   Forall P (drop (S i) ss) -> R ws w'.
Proof.
  intros Hrefl Htrans Hrun.
  induction 1 as [w | s0 ss w w1 done r w' Hs D IH | s0 ss w r w' Hs Hr];
    intros i s ws Hi HP.
  - discriminate.
  - destruct i as [|i]; simpl in Hi.
    + injection Hi as <- <-. simpl in HP.
      now apply (rio_respects R P Hrefl Htrans Hrun ss w1 done r w').
    + now apply (IH i s ws).
  - discriminate.
Qed.

End InOrder.

Lemma bind_ext {A B} (m : M A) (k k' : A -> M B) w :
  (forall a w1, k a w1 = k' a w1) -> bind m k w = bind m k' w.
Proof. intros H. unfold bind. destruct (m w) as [[a | e | c] w1]; auto. Qed.

Lemma bind_ret_tt (m : M unit) w : bind m (fun _ => ret tt) w = m w.
Proof. unfold bind. now destruct (m w) as [[[] | e | c] w1]. Qed.

Lemma run_steps_seq E cfg b w :
  run_steps E cfg b w = seq_all (map (step_run E cfg b) pipeline) w.
Proof.
  unfold run_steps, pipeline. cbn [map seq_all step_run].
  do 4 (apply bind_ext; intros _ ?).
  symmetry. apply bind_ret_tt.
Qed.

Section StepsKeep.
Variables (E : env) (cfg : config) (b : string).

Lemma step_run_trace_grows s : respects trace_grows (step_run E cfg b s).
Proof.
  destruct s; simpl.
  - apply check_cursor_process_trace_grows.
  - apply reset_machine_id_trace_grows.
  - apply modify_product_json_trace_grows.
  - apply patch_workbench_trace_grows.
  - apply open_login_page_trace_grows.
Qed.

Lemma step_run_keeps_content q s :
  target E cfg s <> Some q -> respects (keeps_content q) (step_run E cfg b s).
Proof.
  destruct s; simpl; intros Hq.
  - apply check_cursor_process_keeps_content.
  - apply reset_machine_id_keeps_content. congruence.
  - apply modify_product_json_keeps_content. congruence.
  - apply patch_workbench_keeps_content. congruence.
  - apply open_login_page_keeps_content.
Qed.

End StepsKeep.

(** C5. The five steps run in the order written, each in the world its
    predecessor left and only after its predecessor returned normally; the
    run ends with the first step that does not return normally, with that
    step's result and in the world that step left. Nothing is rolled back:
    the events of every completed step are still in the final trace, and a
    file that no later step writes still holds the text the completed step
    left in it. *)
Theorem run_steps_in_order (E : env) (cfg : config) (browser_type : string)
    (w : world) :
  let run := step_run E cfg browser_type in
  let r := fst (run_steps E cfg browser_type w) in
  let w' := snd (run_steps E cfg browser_type w) in
  exists done : list (step * world),
    runs_in_order run pipeline w done r w'
    /\ map fst done `prefix_of` pipeline
    /\ (r = Ok tt <-> map fst done = pipeline)
    /\ (forall i s ws, done !! i = Some (s, ws) ->
          trace_grows ws w'
          /\ forall q,
               Forall (fun s' => target E cfg s' <> Some q)
                 (drop (S i) pipeline) ->
               content_at w' q = content_at ws q).
Proof.
  intros run r w'.
  destruct (seq_all_in_order (step_run E cfg browser_type) pipeline w)
    as [done D].
  rewrite <- run_steps_seq in D. fold run r w' in D.
  exists done. split; [exact D |].
  split; [exact (rio_prefix _ _ _ _ _ _ D) |].
  split; [exact (rio_all_done _ _ _ _ _ _ D) |].
  intros i s ws Hi. split.
  - apply (rio_respects_after run trace_grows (fun _ => True)
             trace_grows_refl trace_grows_trans
             (fun s _ => step_run_trace_grows E cfg browser_type s)
             _ _ _ _ _ D i s ws Hi).
    apply Forall_forall. auto.
  - intros q Hq.
    apply (rio_respects_after run (keeps_content q)
             (fun s' => target E cfg s' <> Some q)
             (keeps_content_refl q) (keeps_content_trans q)
             (step_run_keeps_content E cfg browser_type q)
             _ _ _ _ _ D i s ws Hi Hq).
Qed.

(** ** [main] around the steps *)

(** When the installation path does not exist, [main] exits before the
    first step. *)
Lemma main_path_missing (E : env) (cfg : config) (b : string) (w : world) :
  exists_at w (expanduser E (cursor_path cfg)) = false ->
  main E cfg b w
  = (Exited 1,
     World (nodes w) (trace w ++ [Panel (MsgPathNotFound (cursor_path cfg))])
       (draws w) (wdm w)).
Proof.
  intros Hmiss. apply after_eq. unfold main.
  apply after_bind, after_path_exists. rewrite Hmiss. cbn [negb].
  apply after_bind, after_bind, after_emit. apply after_exit. reflexivity.
Qed.

(** When it exists, [main] runs the steps and fails exactly when they do. *)
Lemma main_path_present (E : env) (cfg : config) (b : string) (w : world) :
  exists_at w (expanduser E (cursor_path cfg)) = true ->
  fst (main E cfg b w) = fst (run_steps E cfg b w)
  /\ (fst (run_steps E cfg b w) <> Ok tt ->
      snd (main E cfg b w) = snd (run_steps E cfg b w)).
Proof.
  intros Hex.
  assert (main E cfg b w
          = (run_steps E cfg b ;; emit (Panel MsgSuccess) ;;
             emit (Print MsgEnjoy)) w) as ->.
  { unfold main, bind at 1, path_exists. now rewrite Hex. }
  unfold bind.
  destruct (run_steps E cfg b w) as [[[] | e | c] w1]; cbn [fst snd].
  - split; [reflexivity | intros H; now contradict H].
  - now split.
  - now split.
Qed.

(** ** Examples on the concrete host *)

Module Examples.
Import Demo.

(** The paths of the three files on the concrete host. *)
Example demo_paths :
  machine_id_path host (cursor_path cfg) = machine_id
  /\ product_json_path host (cursor_path cfg) = product_json
  /\ workbench_path host (cursor_path cfg) (cursor_version cfg) = workbench_js.
Proof. repeat split. Qed.

Example loads_dumps_doc_a : loads (dumps 0 doc_a) = Some doc_a.
Proof. vm_compute. reflexivity. Qed.

(** A full run on the installation with all three files. *)
Example main_installed :
  let run := main host cfg "chrome" installed in
  fst run = Ok tt
  /\ content_at (snd run) machine_id
     = Some "01234567-89ab-4def-8123-456789abcdef"
  /\ content_at (snd run) product_json
     = Some (dumps 0 (JDict [("a", JInt 1); ("tokenLimit", JInt 500000);
                             ("premiumModels", premium_models)]))
  /\ content_at (snd run) workbench_js = Some "if(a./*checkForUpdates*/()){}".
Proof. vm_compute. repeat split. Qed.

(** A run in which the first write is cut: the identifier file is left
    with three characters and no later step touches its file. *)
Example main_cut :
  let run := main (host_cut 3) cfg "chrome" installed in
  fst run = Exited 1
  /\ content_at (snd run) machine_id = Some "012"
  /\ content_at (snd run) product_json = content_at installed product_json
  /\ content_at (snd run) workbench_js = content_at installed workbench_js.
Proof. vm_compute. repeat split. Qed.

(** A read-only [product.json] on a host that refuses the escalation. *)
Example modify_read_only :
  let run := modify_product_json host (cursor_path cfg) (token_limit cfg)
               read_only in
  fst run = Exited 1
  /\ escalations (trace (snd run)) = 1
  /\ content_at (snd run) product_json = content_at read_only product_json.
Proof. vm_compute. repeat split. Qed.

(** A document that is no object cannot take the two keys. *)
Example modify_list_document :
  let w := World {[product_json := File (dumps 0 (JList [JInt 1])) true]} [] 0 [] in
  let run := modify_product_json host (cursor_path cfg) (token_limit cfg) w in
  fst run = Exited 1
  /\ content_at (snd run) product_json = content_at w product_json.
Proof. vm_compute. repeat split. Qed.

Example reap_two_of_three :
  let E := host_running [Process 11 (Some "Cursor"); Process 12 (Some "bash");
                         Process 13 (Some "Cursor Helper (GPU)")] in
  let run := check_cursor_process E bare in
  fst run = Ok tt
  /\ terminated (trace (snd run)) = [11; 13]
  /\ trace (snd run)
     = [Progress MsgCheckingProcesses;
        Terminate 11; Progress MsgClosingProcess; Sleep 1;
        Terminate 13; Progress MsgClosingProcess; Sleep 1;
        Progress MsgProcessesChecked].
Proof. vm_compute. repeat split. Qed.

(** A process whose name psutil could not read ends the loop. *)
Example reap_nameless :
  let E := host_running [Process 11 (Some "Cursor"); Process 12 None;
                         Process 13 (Some "Cursor Helper (GPU)")] in
  let run := check_cursor_process E bare in
  fst run = Raised TypeError
  /\ terminated (trace (snd run)) = [11].
Proof. vm_compute. repeat split. Qed.

End Examples.

(** ** The theorems at concrete inputs *)

(** C6 on a missing path and on a writable file. *)
Lemma check_and_set_permissions_common_path_witness :
  (exists_at Demo.bare (expanduser Demo.host "~/.config/cursor/machineId") = false
   /\ check_and_set_permissions Demo.host "~/.config/cursor/machineId" Demo.bare
      = (Ok tt, Demo.bare))
  /\ (writable_at Demo.installed (expanduser Demo.host Demo.machine_id) = true
      /\ check_and_set_permissions Demo.host Demo.machine_id Demo.installed
         = (Ok tt, Demo.installed)).
Proof.
  split; (split; [vm_compute; reflexivity |]).
  - apply (check_and_set_permissions_common_path Demo.host
             "~/.config/cursor/machineId" Demo.bare).
    left. vm_compute. reflexivity.
  - apply (check_and_set_permissions_common_path Demo.host
             Demo.machine_id Demo.installed).
    right. vm_compute. reflexivity.
Defined.

(** C8 on the bare installation. *)
Lemma modify_product_json_missing_witness :
  exists_at Demo.bare Demo.product_json = false
  /\ fst (modify_product_json Demo.host "~/.config/cursor" (JInt 500000) Demo.bare)
     = Ok tt
  /\ nodes (snd (modify_product_json Demo.host "~/.config/cursor" (JInt 500000)
                   Demo.bare))
     = nodes Demo.bare.
Proof.
  split; [vm_compute; reflexivity |].
  destruct (modify_product_json_missing Demo.host "~/.config/cursor"
              (JInt 500000) Demo.bare) as [Hrun Hnodes].
  - vm_compute. reflexivity.
  - vm_compute. reflexivity.
  - split; [now rewrite Hrun | exact Hnodes].
Defined.

(** C2 on the document [{"a": 1}] with the limit 500000. *)
Lemma modify_product_json_read_modify_write_witness :
  json_load Demo.host (Demo.dumps 0 Demo.doc_a) = Some (JDict [("a", JInt 1)])
  /\ content_at
       (snd (modify_product_json Demo.host "~/.config/cursor" (JInt 500000)
               Demo.installed))
       Demo.product_json
     = Some (Demo.dumps 0
               (JDict [("a", JInt 1); ("tokenLimit", JInt 500000);
                       ("premiumModels", premium_models)])).
Proof.
  split; [vm_compute; reflexivity |].
  destruct (modify_product_json_read_modify_write Demo.host "~/.config/cursor"
              (JInt 500000) Demo.installed (Demo.dumps 0 Demo.doc_a)
              [("a", JInt 1)]) as (_ & Hcontent & _);
    [vm_compute; reflexivity .. |].
  exact Hcontent.
Defined.

(** C10 on a document whose [premiumModels] is a string. *)
Lemma modify_product_json_premium_models_witness :
  let d := [("premiumModels", JStr "none"); ("a", JInt 1)] in
  let w := World {[Demo.product_json := File (Demo.dumps 0 (JDict d)) true]}
             [] 0 [] in
  json_load Demo.host (Demo.dumps 0 (JDict d)) = Some (JDict d)
  /\ exists d',
       content_at
         (snd (modify_product_json Demo.host "~/.config/cursor" (JInt 7) w))
         Demo.product_json
       = Some (Demo.dumps 0 (JDict d'))
       /\ PyDict.get "premiumModels" d'
          = Some (JList [JStr "gpt-4o-mini"; JStr "gpt-4";
                         JStr "claude-3.5-sonnet"]).
Proof.
  intros d w. split; [vm_compute; reflexivity |].
  destruct (modify_product_json_premium_models Demo.host "~/.config/cursor"
              (JInt 7) w (Demo.dumps 0 (JDict d)) d) as (d' & Hrun & Hget);
    [vm_compute; reflexivity .. |].
  exists d'. split; [| exact Hget].
  rewrite Hrun.
  change Demo.product_json with (product_json_path Demo.host "~/.config/cursor").
  unfold content_at. cbn [snd nodes]. now rewrite lookup_insert_eq.
Defined.




(** C3, as stated, fails: a write that is cut leaves the file without its
    prior content. The script file keeps three characters of the new
    text, the config document none. *)
Lemma failed_write_loses_prior_content :
  let script := patch_workbench (Demo.host_cut 3) "~/.config/cursor" "0.49.2"
                  Demo.installed in
  let document := modify_product_json (Demo.host_cut 0) "~/.config/cursor"
                    (JInt 500000) Demo.installed in
  fst script = Exited 1
  /\ content_at Demo.installed Demo.workbench_js = Some "if(a.checkForUpdates()){}"
  /\ content_at (snd script) Demo.workbench_js = Some "if("
  /\ fst document = Exited 1
  /\ content_at Demo.installed Demo.product_json = Some (Demo.dumps 0 Demo.doc_a)
  /\ content_at (snd document) Demo.product_json = Some EmptyString
  /\ content_at (snd script) Demo.workbench_js
     <> content_at Demo.installed Demo.workbench_js
  /\ content_at (snd document) Demo.product_json
     <> content_at Demo.installed Demo.product_json.
Proof. vm_compute. repeat split; discriminate. Qed.

(** C3, amended, on the cut writes. *)
Lemma failed_patch_prior_or_prefix_witness :
  fst (patch_workbench (Demo.host_cut 3) "~/.config/cursor" "0.49.2"
         Demo.installed) <> Ok tt
  /\ (content_at
        (snd (patch_workbench (Demo.host_cut 3) "~/.config/cursor" "0.49.2"
                Demo.installed))
        (workbench_path (Demo.host_cut 3) "~/.config/cursor" "0.49.2")
      = content_at Demo.installed
          (workbench_path (Demo.host_cut 3) "~/.config/cursor" "0.49.2")
      \/ exists content,
           content_at Demo.installed
             (workbench_path (Demo.host_cut 3) "~/.config/cursor" "0.49.2")
           = Some content
           /\ cut_short (Demo.host_cut 3)
                (workbench_path (Demo.host_cut 3) "~/.config/cursor" "0.49.2")
                (patched_content content)
                (snd (patch_workbench (Demo.host_cut 3) "~/.config/cursor"
                        "0.49.2" Demo.installed))).
Proof.
  assert (fst (patch_workbench (Demo.host_cut 3) "~/.config/cursor" "0.49.2"
                 Demo.installed) <> Ok tt) as Hfail
    by (vm_compute; discriminate).
  split; [exact Hfail |].
  destruct (failed_patch_prior_or_prefix (Demo.host_cut 3) "~/.config/cursor"
              "0.49.2" (JInt 500000) Demo.installed) as [_ Hscript].
  exact (Hscript Hfail).
Defined.

(** C5 on a run whose first write is cut: not all steps complete. *)
Lemma run_steps_in_order_witness :
  exists done : list (step * world),
    map fst done `prefix_of` pipeline
    /\ map fst done <> pipeline
    /\ runs_in_order (step_run (Demo.host_cut 3) Demo.cfg "chrome") pipeline
         Demo.installed done
         (fst (run_steps (Demo.host_cut 3) Demo.cfg "chrome" Demo.installed))
         (snd (run_steps (Demo.host_cut 3) Demo.cfg "chrome" Demo.installed)).
Proof.
  destruct (run_steps_in_order (Demo.host_cut 3) Demo.cfg "chrome"
              Demo.installed) as (done & Hrun & Hprefix & Hall & _).
  exists done. split; [exact Hprefix |]. split; [| exact Hrun].
  intros Heq. apply Hall in Heq. vm_compute in Heq. discriminate.
Defined.

(** * Further properties *)

(** ** The script patch determines and is determined by its input *)

Module PatchMore.
Import PyStr PyStrFacts PatchFacts.

Lemma wraps_out_nil t : wraps t EmptyString -> t = EmptyString.
Proof.
  intros W. remember EmptyString as out eqn:E.
  destruct W as [| m r r' Hm W | c r r' Hc W];
    [reflexivity | discriminate E ..].
Qed.

(** How a derivation ends whose output starts with [c]. *)
Lemma wraps_out_cons t c x :
  wraps t (String c x) ->
  (c = "/"%char
   /\ exists m r r', In m markers /\ t = m +:+ r
                     /\ x = "*" +:+ m +:+ "*/" +:+ r' /\ wraps r r')
  \/ (exists r, t = String c r
                /\ (forall m, In m markers -> startswith m t = false)
                /\ wraps r x).
Proof.
  intros W. remember (String c x) as out eqn:E.
  destruct W as [| m r r' Hm W | c' r r' Hc W].
  - discriminate E.
  - left. simpl in E. injection E as <- <-. split; [reflexivity |].
    exists m, r, r'. auto.
  - right. injection E as <- <-. exists r. auto.
Qed.

Lemma marker_head m :
  In m markers -> exists c m', m = String c m' /\ c <> "/"%char.
Proof.
  intros Hm. destruct (marker_cases _ Hm); subst;
    eexists _, _; (split; [reflexivity | discriminate]).
Qed.

Lemma marker_slash_free m : In m markers -> has_char "/" m = false.
Proof. intros Hm. destruct (marker_cases _ Hm); subst; reflexivity. Qed.

(** No input is wrapped into a text that shows a marker right behind a
    lone star. *)
Lemma no_wraps_star m r x : In m markers -> wraps r ("*" +:+ m +:+ x) -> False.
Proof.
  intros Hm W.
  apply wraps_out_cons in W as [[Hc _] | (r1 & -> & _ & W)]; [discriminate |].
  pose proof (wraps_startswith m (marker_slash_free m Hm) _ _ W
                (startswith_app m x)) as Hstart.
  destruct (marker_head m Hm) as (c & m' & -> & Hc).
  apply wraps_out_cons in W as [[Hc' _] | (r2 & -> & Hno & _)];
    [contradiction |].
  rewrite (Hno _ Hm) in Hstart. discriminate.
Qed.

Lemma disabled_eq m m0 x x0 :
  In m markers -> In m0 markers ->
  m +:+ "*/" +:+ x = m0 +:+ "*/" +:+ x0 -> m = m0 /\ x = x0.
Proof.
  intros Hm Hm0 H.
  destruct (marker_cases _ Hm); destruct (marker_cases _ Hm0); subst;
    simpl in H; try discriminate H; now injection H.
Qed.

Lemma marker_eq_head m m0 r r0 :
  In m markers -> In m0 markers -> m +:+ r = m0 +:+ r0 -> m = m0 /\ r = r0.
Proof.
  intros Hm Hm0 H.
  destruct (marker_cases _ Hm); destruct (marker_cases _ Hm0); subst;
    simpl in H; try discriminate H; now injection H.
Qed.

Lemma wraps_inj t1 t' : wraps t1 t' -> forall t2, wraps t2 t' -> t1 = t2.
Proof.
  induction 1 as [| m r r' Hm W IH | c r r' Hc W IH]; intros t2 W2.
  - symmetry. now apply wraps_out_nil.
  - apply wraps_out_cons in W2
      as [(_ & m0 & r0 & r0' & Hm0 & -> & Heq & W0) | (r0 & -> & _ & W0)].
    + injection Heq as Heq.
      apply disabled_eq in Heq as [-> ->]; try assumption.
      now rewrite (IH _ W0).
    + exfalso. now apply (no_wraps_star m r0 ("*/" +:+ r')).
  - apply wraps_out_cons in W2
      as [(-> & m0 & r0 & r0' & Hm0 & -> & -> & W0) | (r0 & -> & _ & W0)].
    + exfalso. now apply (no_wraps_star m0 r ("*/" +:+ r0')).
    + now rewrite (IH _ W0).
Qed.

(** What a derivation does at its input. *)
Lemma wraps_in_marker m r t' :
  In m markers -> wraps (m +:+ r) t' ->
  exists r', t' = "/*" +:+ m +:+ "*/" +:+ r' /\ wraps r r'.
Proof.
  intros Hm W. remember (m +:+ r) as t eqn:E.
  destruct W as [| m0 r0 r0' Hm0 W | c0 r0 r0' Hc0 W].
  - destruct (marker_head m Hm) as (c & m' & -> & _). discriminate E.
  - apply marker_eq_head in E as [-> ->]; try assumption.
    now exists r0'.
  - exfalso. specialize (Hc0 m Hm). rewrite E, startswith_app in Hc0.
    discriminate.
Qed.

Lemma wraps_in_char c r t' :
  (forall m, In m markers -> startswith m (String c r) = false) ->
  wraps (String c r) t' ->
  exists r', t' = String c r' /\ wraps r r'.
Proof.
  intros Hc W. remember (String c r) as t eqn:E.
  destruct W as [| m0 r0 r0' Hm0 W | c0 r0 r0' Hc0 W].
  - discriminate E.
  - exfalso. specialize (Hc m0 Hm0). rewrite startswith_app in Hc.
    discriminate.
  - injection E as -> ->. now exists r0'.
Qed.

Lemma wraps_fun t t1 : wraps t t1 -> forall t2, wraps t t2 -> t1 = t2.
Proof.
  induction 1 as [| m r r' Hm W IH | c r r' Hc W IH]; intros t2 W2.
  - remember EmptyString as t eqn:E.
    destruct W2 as [| m0 r0 r0' Hm0 W0 | c0 r0 r0' Hc0 W0];
      [reflexivity | | discriminate E].
    destruct (marker_head m0 Hm0) as (c & m' & -> & _). discriminate E.
  - apply wraps_in_marker in W2 as (r2 & -> & W2); [| assumption].
    now rewrite (IH _ W2).
  - apply wraps_in_char in W2 as (r2 & -> & W2); [| assumption].
    now rewrite (IH _ W2).
Qed.

End PatchMore.

(** X1. The script patch loses nothing: two texts with the same patched
    text are the same text. *)
Theorem patched_content_injective (t1 t2 : string) :
  patched_content t1 = patched_content t2 -> t1 = t2.
Proof.
  intros H. apply (PatchMore.wraps_inj t1 (patched_content t1)).
  - apply PatchFacts.patched_wraps.
  - rewrite H. apply PatchFacts.patched_wraps.
Qed.

Lemma patched_content_injective_witness :
  patched_content "a.checkForUpdates()" = patched_content "a.checkForUpdates()"
  /\ "a.checkForUpdates()" = "a.checkForUpdates()".
Proof.
  split; [reflexivity |].
  apply (patched_content_injective "a.checkForUpdates()" "a.checkForUpdates()").
  reflexivity.
Defined.

(** X2. The patched text is the only text that wraps every marker of the
    input and copies the rest: whatever is related to the input by
    [wraps] is the output of the patch. *)
Theorem wraps_only_patched_content (t t' : string) :
  wraps t t' -> t' = patched_content t.
Proof.
  intros W. apply (PatchMore.wraps_fun t t' W).
  apply PatchFacts.patched_wraps.
Qed.

Lemma wraps_only_patched_content_witness :
  wraps "checkForUpdates;" "/*checkForUpdates*/;"
  /\ "/*checkForUpdates*/;" = patched_content "checkForUpdates;".
Proof.
  assert (wraps "checkForUpdates;" "/*checkForUpdates*/;") as W.
  { apply (wraps_marker "checkForUpdates" ";" ";"); [simpl; auto |].
    apply wraps_char; [| apply wraps_end].
    intros m [<- | [<- | []]]; reflexivity. }
  split; [exact W |].
  apply (wraps_only_patched_content _ _ W).
Defined.

(** ** Which processes are matched *)

Lemma contains_iff (sub s : string) :
  contains sub s = true <-> exists pre post, s = pre +:+ sub +:+ post.
Proof.
  split.
  - induction s as [|c s IH]; simpl; intros H.
    + rewrite orb_false_r in H.
      apply PyStrFacts.startswith_split in H as [r ->].
      now exists EmptyString, r.
    + apply orb_true_iff in H as [H | H].
      * apply PyStrFacts.startswith_split in H as [r ->].
        now exists EmptyString, r.
      * destruct (IH H) as (pre & post & ->).
        now exists (String c pre), post.
  - intros (pre & post & ->). induction pre as [|c pre IH].
    + simpl String.append.
      destruct (sub +:+ post) eqn:E; simpl; rewrite <- E;
        now rewrite PyStrFacts.startswith_app.
    + change (String c pre +:+ sub +:+ post)
        with (String c (pre +:+ sub +:+ post)).
      cbn [contains]. rewrite IH. apply orb_true_r.
Qed.

Lemma matching_iff (procs : list process) (proc : process) :
  In proc (matching procs)
  <-> In proc procs
      /\ exists pre post, name proc = Some (pre +:+ "Cursor" +:+ post).
Proof.
  unfold matching, is_match. rewrite filter_In.
  destruct (name proc) as [n |].
  - rewrite contains_iff.
    split; intros [H (pre & post & Hn)]; (split; [exact H |]);
      exists pre, post; congruence.
  - split; [intros [_ H] | intros [_ (pre & post & H)]]; discriminate.
Qed.

Lemma terminated_checked (asked : list process) (tail : list event) :
  terminated (([Progress MsgCheckingProcesses]
               ++ flat_map reap_events asked) ++ tail)
  = (map pid asked ++ terminated tail)%list.
Proof. now rewrite !terminated_app, terminated_reap_events. Qed.

(** X3. The processes that [check_cursor_process] asks to terminate are
    the running processes whose name has ["Cursor"] somewhere inside,
    with these capitals: every termination request it adds goes to such a
    process, also when the loop is ended by an exception, and when it
    returns normally every such process has been asked. *)
Theorem check_cursor_process_asks_Cursor_processes (E : env) (w : world) :
  let w' := snd (check_cursor_process E w) in
  (forall p, In p (terminated (trace w')) ->
     In p (terminated (trace w))
     \/ exists proc pre post,
          In proc (process_iter E) /\ pid proc = p
          /\ name proc = Some (pre +:+ "Cursor" +:+ post))
  /\ (fst (check_cursor_process E w) = Ok tt ->
      forall proc pre post,
        In proc (process_iter E) ->
        name proc = Some (pre +:+ "Cursor" +:+ post) ->
        In (pid proc) (terminated (trace w'))).
Proof.
  intros w'. unfold w'. rewrite (check_cursor_process_run E w).
  set (asked := matching (fst (reaped E (process_iter E)))).
  assert (forall p, In p (map pid asked) ->
            exists proc pre post,
              In proc (process_iter E) /\ pid proc = p
              /\ name proc = Some (pre +:+ "Cursor" +:+ post)) as Honly.
  { intros p Hp. apply in_map_iff in Hp as (proc & <- & Hin).
    apply matching_iff in Hin as [Hin (pre & post & Hn)].
    apply reaped_incl in Hin as [Hin _].
    exists proc, pre, post. auto. }
  destruct (snd (reaped E (process_iter E))) as [e |] eqn:Hend;
    cbn [fst snd trace].
  - split; [| discriminate].
    intros p Hp. rewrite terminated_app in Hp.
    apply in_app_or in Hp as [Hp | Hp]; [now left | right].
    apply Honly.
    rewrite <- (List.app_nil_r (_ ++ flat_map _ _)) in Hp.
    rewrite terminated_checked in Hp. cbn in Hp.
    now rewrite List.app_nil_r in Hp.
  - split.
    + intros p Hp. rewrite terminated_app in Hp.
      apply in_app_or in Hp as [Hp | Hp]; [now left | right].
      apply Honly.
      rewrite terminated_checked in Hp.
      destruct (is_nil asked); cbn in Hp; now rewrite List.app_nil_r in Hp.
    + intros _ proc pre post Hin Hn.
      rewrite terminated_app. apply in_or_app. right.
      rewrite terminated_checked.
      apply in_or_app. left. apply in_map. unfold asked.
      rewrite (reaped_none E _ Hend).
      apply matching_iff. split; [exact Hin | now exists pre, post].
Qed.

Lemma check_cursor_process_asks_Cursor_processes_witness :
  let E := Demo.host_running
             [Process 11 (Some "Cursor"); Process 12 (Some "bash");
              Process 13 (Some "Cursor Helper (GPU)")] in
  fst (check_cursor_process E Demo.bare) = Ok tt
  /\ In 13 (terminated (trace (snd (check_cursor_process E Demo.bare)))).
Proof.
  intros E.
  assert (fst (check_cursor_process E Demo.bare) = Ok tt) as Hok
    by (vm_compute; reflexivity).
  split; [exact Hok |].
  destruct (check_cursor_process_asks_Cursor_processes E Demo.bare)
    as [_ Hall].
  apply (Hall Hok (Process 13 (Some "Cursor Helper (GPU)"))
           EmptyString " Helper (GPU)").
  - cbn. auto.
  - reflexivity.
Defined.

(** ** The script patch on the file *)

Section ScriptPatch.
Variable E : env.

Lemma patch_workbench_missing_run cp v w :
  let p := workbench_path E cp v in
  expanduser E p = p ->
  exists_at w p = false ->
  patch_workbench E cp v w
  = (Ok tt,
     World (nodes w)
       (trace w ++ [Progress MsgPatchingWorkbench; Progress MsgWorkbenchSkipped])
       (draws w) (wdm w)).
Proof.
  intros p Hexp Hmiss. apply after_eq. unfold patch_workbench. fold p.
  apply after_bind.
  eapply after_of_run; [apply check_missing; now rewrite Hexp |].
  apply after_bind, after_emit.
  apply after_try, after_bind, after_path_exists.
  rewrite exists_at_World, Hmiss.
  apply after_emit. simpl. now rewrite <- List.app_assoc.
Qed.

Lemma patch_workbench_run cp v w content :
  let p := workbench_path E cp v in
  expanduser E p = p ->
  content_at w p = Some content ->
  writable_at w p = true ->
  read_fault E p = false ->
  write_fault E p = NoFault ->
  patch_workbench E cp v w
  = (Ok tt,
     World (<[p := File (patched_content content) true]> (nodes w))
       (trace w ++ [Progress MsgPatchingWorkbench; Progress MsgWorkbenchPatched])
       (draws w) (wdm w)).
Proof.
  intros p Hexp Hc Hw Hrf Hwf. apply after_eq. unfold patch_workbench. fold p.
  apply after_bind.
  eapply after_of_run; [apply check_writable; now rewrite Hexp |].
  apply after_bind, after_emit.
  apply after_try, after_bind, after_path_exists.
  rewrite exists_at_World, (content_exists _ _ _ Hc).
  apply after_bind.
  eapply after_of_run; [apply (read_text_ok E); [exact Hc | exact Hrf] |].
  apply after_bind.
  eapply after_of_run.
  { apply (write_text_ok E); [| exact Hwf].
    now apply (writable_file_can_open _ _ content). }
  apply after_emit. unfold set_node. simpl. now rewrite <- List.app_assoc.
Qed.

End ScriptPatch.

(** X4. When the script file of the configured version does not exist,
    [patch_workbench] returns normally, reports the step as skipped and
    leaves the filesystem as it was. *)
Theorem patch_workbench_missing (E : env) (cp v : string) (w : world) :
  expanduser E (workbench_path E cp v) = workbench_path E cp v ->
  exists_at w (workbench_path E cp v) = false ->
  fst (patch_workbench E cp v w) = Ok tt
  /\ nodes (snd (patch_workbench E cp v w)) = nodes w
  /\ trace (snd (patch_workbench E cp v w))
     = (trace w ++ [Progress MsgPatchingWorkbench;
                    Progress MsgWorkbenchSkipped])%list.
Proof.
  intros Hexp Hmiss.
  now rewrite (patch_workbench_missing_run E cp v w Hexp Hmiss).
Qed.

Lemma patch_workbench_missing_witness :
  exists_at Demo.bare Demo.workbench_js = false
  /\ fst (patch_workbench Demo.host "~/.config/cursor" "0.49.2" Demo.bare) = Ok tt
  /\ nodes (snd (patch_workbench Demo.host "~/.config/cursor" "0.49.2" Demo.bare))
     = nodes Demo.bare.
Proof.
  split; [vm_compute; reflexivity |].
  destruct (patch_workbench_missing Demo.host "~/.config/cursor" "0.49.2"
              Demo.bare) as (Hok & Hnodes & _);
    [vm_compute; reflexivity .. |].
  split; [exact Hok | exact Hnodes].
Defined.

(** X5. On an existing, readable and writable script file,
    [patch_workbench] returns normally; afterwards the file holds the
    patched text of what it held, and every other path is as it was. *)
Theorem patch_workbench_rewrites_file (E : env) (cp v : string) (w : world)
    (content : string) :
  let p := workbench_path E cp v in
  expanduser E p = p ->
  content_at w p = Some content ->
  writable_at w p = true ->
  read_fault E p = false ->
  write_fault E p = NoFault ->
  let w' := snd (patch_workbench E cp v w) in
  fst (patch_workbench E cp v w) = Ok tt
  /\ content_at w' p = Some (patched_content content)
  /\ (forall q, q <> p -> nodes w' !! q = nodes w !! q).
Proof.
  intros p Hexp Hc Hw Hrf Hwf w'. unfold w'.
  rewrite (patch_workbench_run E cp v w content) by assumption. fold p.
  split; [reflexivity |]. split.
  - unfold content_at. simpl. now rewrite lookup_insert_eq.
  - intros q Hq. simpl. now rewrite lookup_insert_ne.
Qed.

Lemma patch_workbench_rewrites_file_witness :
  content_at Demo.installed Demo.workbench_js = Some "if(a.checkForUpdates()){}"
  /\ content_at
       (snd (patch_workbench Demo.host "~/.config/cursor" "0.49.2"
               Demo.installed))
       Demo.workbench_js
     = Some "if(a./*checkForUpdates*/()){}".
Proof.
  split; [vm_compute; reflexivity |].
  destruct (patch_workbench_rewrites_file Demo.host "~/.config/cursor" "0.49.2"
              Demo.installed "if(a.checkForUpdates()){}") as (_ & Hc & _);
    [vm_compute; reflexivity .. |].
  exact Hc.
Defined.

(** ** The permission check on a path that is not writable *)

Section Escalation.
Variable E : env.

Lemma escalations_app t1 t2 :
  escalations (t1 ++ t2) = escalations t1 + escalations t2.
Proof. unfold escalations. now rewrite filter_app, length_app. Qed.

Lemma check_unwritable p w :
  let q := expanduser E p in
  exists_at w q = true -> writable_at w q = false ->
  check_and_set_permissions E p w
  = try_except
      (match escalation_command E q with
       | Some argv => subprocess_check_call E argv q
       | None => ret tt
       end ;;
       logger_debug q)
      is_CalledProcessError
      (emit (Panel (MsgPermissionError q)) ;; exit 1) w.
Proof.
  intros q Hex Hw. unfold check_and_set_permissions. fold q.
  unfold bind at 1, path_exists. rewrite Hex. cbn [negb].
  unfold try_except, bind at 1, access_w. rewrite Hw. cbn [negb].
  unfold bind at 3, escalation_command.
  destruct (in_list (system E) ["Linux"; "Darwin"]); [reflexivity |].
  now destruct (String.eqb (system E) "Windows").
Qed.

Lemma check_escalation_run p w argv :
  let q := expanduser E p in
  exists_at w q = true -> writable_at w q = false ->
  escalation_command E q = Some argv ->
  check_and_set_permissions E p w
  = match check_call E argv with
    | CallReturned0 => (Ok tt, granted E q argv w)
    | CallNonZero =>
        (Exited 1,
         World (nodes w)
           (trace w ++ [Subprocess argv; Panel (MsgPermissionError q)])
           (draws w) (wdm w))
    | CallNotStarted =>
        (Raised OSError,
         World (nodes w) (trace w ++ [Subprocess argv]) (draws w) (wdm w))
    end.
Proof.
  intros q Hex Hw Hcmd. rewrite check_unwritable by assumption.
  fold q. rewrite Hcmd.
  unfold try_except, bind, subprocess_check_call, bind, emit, granted.
  cbn [nodes trace draws].
  destruct (check_call E argv); cbn.
  - now destruct (grants E q).
  - now rewrite <- List.app_assoc.
  - reflexivity.
Qed.

Lemma check_no_command_run p w :
  let q := expanduser E p in
  exists_at w q = true -> writable_at w q = false ->
  escalation_command E q = None ->
  check_and_set_permissions E p w = (Ok tt, w).
Proof.
  intros q Hex Hw Hcmd. rewrite check_unwritable by assumption.
  fold q. rewrite Hcmd. reflexivity.
Qed.

Lemma granted_facts q argv w :
  (forall q', content_at (granted E q argv w) q' = content_at w q')
  /\ (forall q', exists_at (granted E q argv w) q' = exists_at w q')
  /\ (forall q', writable_at w q' = true ->
                 writable_at (granted E q argv w) q' = true)
  /\ draws (granted E q argv w) = draws w
  /\ trace (granted E q argv w) = (trace w ++ [Subprocess argv])%list.
Proof.
  unfold granted. destruct (grants E q); [| repeat split; auto].
  destruct (nodes w !! q) as [[c ok | ok] |] eqn:Hq; [| | repeat split; auto].
  - repeat split; try reflexivity; intros q';
      unfold content_at, exists_at, writable_at, set_node; cbn [nodes];
      (destruct (decide (q = q')) as [<- | Hne];
       [rewrite lookup_insert_eq, ?Hq | rewrite lookup_insert_ne by exact Hne];
       auto).
  - repeat split; try reflexivity; intros q';
      unfold content_at, exists_at, writable_at, set_node; cbn [nodes];
      (destruct (decide (q = q')) as [<- | Hne];
       [rewrite lookup_insert_eq, ?Hq | rewrite lookup_insert_ne by exact Hne];
       auto).
Qed.

End Escalation.

(** X6. On an existing path that is not writable, the permission check
    runs exactly one command, the one of the platform, and none on a
    platform it does not know, where it returns as if the path were
    writable. When the command returns 0 the check returns normally; when
    it returns another code the check shows the permission panel and exits
    with code 1; when it cannot be started the [OSError] is not caught. *)
Theorem check_and_set_permissions_escalation (E : env) (p : string)
    (w : world) :
  let q := expanduser E p in
  let w' := snd (check_and_set_permissions E p w) in
  exists_at w q = true -> writable_at w q = false ->
  match escalation_command E q with
  | None => check_and_set_permissions E p w = (Ok tt, w)
  | Some argv =>
      escalations (trace w') = escalations (trace w) + 1
      /\ match check_call E argv with
         | CallReturned0 =>
             fst (check_and_set_permissions E p w) = Ok tt
             /\ trace w' = (trace w ++ [Subprocess argv])%list
             /\ (grants E q = true -> writable_at w' q = true)
         | CallNonZero =>
             check_and_set_permissions E p w
             = (Exited 1,
                World (nodes w)
                  (trace w ++ [Subprocess argv; Panel (MsgPermissionError q)])
                  (draws w) (wdm w))
         | CallNotStarted =>
             check_and_set_permissions E p w
             = (Raised OSError,
                World (nodes w) (trace w ++ [Subprocess argv]) (draws w) (wdm w))
         end
  end.
Proof.
  intros q w' Hex Hw. unfold w'.
  destruct (escalation_command E q) as [argv |] eqn:Hcmd.
  - rewrite (check_escalation_run E p w argv Hex Hw Hcmd). fold q.
    destruct (granted_facts E q argv w) as (_ & _ & _ & _ & Htrace).
    destruct (check_call E argv); cbn [fst snd trace].
    + rewrite Htrace, escalations_app. split; [reflexivity |].
      split; [reflexivity |]. split; [reflexivity |].
      intros Hg. unfold granted. rewrite Hg.
      unfold exists_at in Hex. unfold writable_at, set_node.
      destruct (nodes w !! q) as [[c ok | ok] |]; [| | discriminate];
        cbn [nodes]; now rewrite lookup_insert_eq.
    + rewrite escalations_app. split; reflexivity.
    + rewrite escalations_app. split; reflexivity.
  - now apply check_no_command_run.
Qed.

Lemma check_and_set_permissions_escalation_witness :
  exists_at Demo.read_only Demo.product_json = true
  /\ writable_at Demo.read_only Demo.product_json = false
  /\ check_and_set_permissions Demo.host Demo.product_json Demo.read_only
     = (Exited 1,
        World (nodes Demo.read_only)
          [Subprocess ["sudo"; "chmod"; "u+rw"; Demo.product_json];
           Panel (MsgPermissionError Demo.product_json)] 0 []).
Proof.
  split; [vm_compute; reflexivity |]. split; [vm_compute; reflexivity |].
  pose proof (check_and_set_permissions_escalation Demo.host Demo.product_json
                Demo.read_only) as H.
  cbv zeta in H. specialize (H eq_refl eq_refl).
  exact (proj2 H).
Defined.

(** X7. Whatever the platform and however its command ends, the permission
    check starts at most one command, changes the text of no file, creates
    and removes nothing, takes write access from no path, draws no random
    value, and ends normally, with exit code 1 or with an [OSError]. *)
Theorem check_and_set_permissions_invariants (E : env) (p : string)
    (w : world) :
  let r := fst (check_and_set_permissions E p w) in
  let w' := snd (check_and_set_permissions E p w) in
  (forall q, content_at w' q = content_at w q)
  /\ (forall q, exists_at w' q = exists_at w q)
  /\ (forall q, writable_at w q = true -> writable_at w' q = true)
  /\ draws w' = draws w
  /\ escalations (trace w') <= escalations (trace w) + 1
  /\ (r = Ok tt \/ r = Exited 1 \/ r = Raised OSError).
Proof.
  intros r w'. unfold r, w'.
  destruct (exists_at w (expanduser E p)) eqn:Hex.
  2: { rewrite (check_missing E p w Hex). cbn.
       repeat split; auto; lia. }
  destruct (writable_at w (expanduser E p)) eqn:Hw.
  { rewrite (check_writable E p w Hw). cbn. repeat split; auto; lia. }
  destruct (escalation_command E (expanduser E p)) as [argv |] eqn:Hcmd.
  2: { rewrite (check_no_command_run E p w Hex Hw Hcmd). cbn.
       repeat split; auto; lia. }
  rewrite (check_escalation_run E p w argv Hex Hw Hcmd).
  destruct (granted_facts E (expanduser E p) argv w)
    as (Hc & He & Hwr & Hd & Ht).
  destruct (check_call E argv); cbn [fst snd].
  - rewrite Ht, escalations_app. repeat split; auto; cbn; lia.
  - cbn [trace draws]. rewrite escalations_app.
    repeat split; auto; cbn; lia.
  - cbn [trace draws]. rewrite escalations_app.
    repeat split; auto; cbn; lia.
Qed.

(** X8. When the file of a step exists, is not writable, and the command
    of the platform does not return 0, the step ends as the permission
    check ends: it reports no progress, does not open its file and draws no
    identifier. *)
Theorem step_stops_at_refused_escalation (E : env) (cfg : config)
    (b : string) (s : step) (p : string) (argv : list string) (w : world) :
  target E cfg s = Some p ->
  expanduser E p = p ->
  exists_at w p = true -> writable_at w p = false ->
  escalation_command E p = Some argv ->
  check_call E argv <> CallReturned0 ->
  step_run E cfg b s w = check_and_set_permissions E p w
  /\ fst (step_run E cfg b s w) <> Ok tt
  /\ nodes (snd (step_run E cfg b s w)) = nodes w
  /\ draws (snd (step_run E cfg b s w)) = draws w.
Proof.
  intros Ht Hexp Hex Hw Hcmd Hcall.
  assert (exists r w1, check_and_set_permissions E p w = (r, w1)
                       /\ r <> Ok tt /\ nodes w1 = nodes w
                       /\ draws w1 = draws w) as (r & w1 & Hrun & Hr & Hn & Hd).
  { rewrite <- Hexp in Hex, Hw, Hcmd.
    rewrite (check_escalation_run E p w argv Hex Hw Hcmd).
    destruct (check_call E argv); [contradiction | |];
      eexists _, _; (split; [reflexivity |]); repeat split; discriminate. }
  assert (step_run E cfg b s w = (r, w1)) as Hstep.
  { destruct s; cbn [target] in Ht; try discriminate; injection Ht as <-;
      cbn [step_run];
      unfold reset_machine_id, modify_product_json, patch_workbench;
      unfold bind at 1; rewrite Hrun; destruct r as [[] | e | c];
      try reflexivity; contradiction. }
  rewrite Hstep, Hrun. auto.
Qed.

Lemma step_stops_at_refused_escalation_witness :
  target Demo.host Demo.cfg PatchConfig = Some Demo.product_json
  /\ fst (step_run Demo.host Demo.cfg "chrome" PatchConfig Demo.read_only)
     <> Ok tt
  /\ nodes (snd (step_run Demo.host Demo.cfg "chrome" PatchConfig Demo.read_only))
     = nodes Demo.read_only.
Proof.
  split; [reflexivity |].
  destruct (step_stops_at_refused_escalation Demo.host Demo.cfg "chrome"
              PatchConfig Demo.product_json
              ["sudo"; "chmod"; "u+rw"; Demo.product_json] Demo.read_only)
    as (_ & Hr & Hn & _);
    [vm_compute; reflexivity .. | vm_compute; discriminate |].
  split; [exact Hr | exact Hn].
Defined.

(** ** The config patch on a document it cannot patch *)

Ltac run_handler :=
  cbn [any_exception]; apply after_bind, after_emit; apply after_exit.

(** X9. When [product.json] is readable and writable but its text does not
    parse to an object (it does not parse, or parses to a list, a string, a
    number), [modify_product_json] shows the error panel and exits with
    code 1 without opening the file for writing: the filesystem is as it
    was. *)
Theorem modify_product_json_rejects_document (E : env) (cp : string)
    (tl : json) (w : world) (text : string) :
  let p := product_json_path E cp in
  expanduser E p = p ->
  content_at w p = Some text ->
  writable_at w p = true ->
  read_fault E p = false ->
  (forall d, json_load E text <> Some (JDict d)) ->
  modify_product_json E cp tl w
  = (Exited 1,
     World (nodes w)
       (trace w ++ [Progress MsgUpdatingProduct; Panel MsgProductError])
       (draws w) (wdm w)).
Proof.
  intros p Hexp Hc Hw Hrf Hno.
  apply after_eq. unfold modify_product_json. fold p.
  apply after_bind.
  eapply after_of_run; [apply check_writable; now rewrite Hexp |].
  apply after_bind, after_emit.
  apply after_try, after_bind, after_path_exists.
  rewrite exists_at_World, (content_exists _ _ _ Hc).
  apply after_bind.
  eapply after_of_run; [apply (read_text_ok E); [exact Hc | exact Hrf] |].
  apply after_bind, after_of_option.
  destruct (json_load E text) as [data |] eqn:Hload.
  - apply after_bind, after_of_option.
    destruct data as [| b | z | f | s | l | d]; cbn [setitem];
      try (run_handler; cbn; now rewrite <- List.app_assoc).
    now destruct (Hno d).
  - run_handler. cbn. now rewrite <- List.app_assoc.
Qed.

Lemma modify_product_json_rejects_document_witness :
  let w := World {[Demo.product_json := File (Demo.dumps 0 (JList [JInt 1])) true]}
             [] 0 [] in
  json_load Demo.host (Demo.dumps 0 (JList [JInt 1])) = Some (JList [JInt 1])
  /\ modify_product_json Demo.host "~/.config/cursor" (JInt 5) w
     = (Exited 1,
        World (nodes w) [Progress MsgUpdatingProduct; Panel MsgProductError] 0 []).
Proof.
  intros w. split; [vm_compute; reflexivity |].
  apply (modify_product_json_rejects_document Demo.host "~/.config/cursor"
           (JInt 5) w (Demo.dumps 0 (JList [JInt 1])));
    [vm_compute; reflexivity .. |].
  intros d. vm_compute. discriminate.
Defined.

(** ** Running the config patch again *)

Module PyDictMore.
Import PyDict.

Lemma set_set_same k v v' d : set k v (set k v' d) = set k v d.
Proof.
  induction d as [|[k0 v0] d IH]; simpl.
  - now rewrite String.eqb_refl.
  - destruct (String.eqb k k0) eqn:Hk; simpl.
    + now rewrite String.eqb_refl.
    + now rewrite Hk, IH.
Qed.

Lemma mem_set_same k v d : mem k (set k v d) = true.
Proof. unfold mem. now rewrite PyDictFacts.get_set_same. Qed.

(** Assignments to different keys commute when the first key is already
    there (neither changes the order then). *)
Lemma set_comm_present k1 k2 v1 v2 d :
  k1 <> k2 -> mem k1 d = true ->
  set k1 v1 (set k2 v2 d) = set k2 v2 (set k1 v1 d).
Proof.
  intros Hne. unfold mem.
  induction d as [|[k0 v0] d IH]; simpl; [discriminate |].
  intros Hmem.
  destruct (String.eqb k1 k0) eqn:H1; destruct (String.eqb k2 k0) eqn:H2;
    simpl; rewrite ?H1, ?H2.
  - apply String.eqb_eq in H1, H2. congruence.
  - apply not_eq_sym, String.eqb_neq in Hne. now rewrite Hne.
  - apply String.eqb_neq in Hne. now rewrite Hne.
  - now rewrite IH.
Qed.

Lemma patched_document_twice tl1 tl2 d :
  patched_document tl2 (patched_document tl1 d) = patched_document tl2 d.
Proof.
  unfold patched_document.
  rewrite (set_comm_present "tokenLimit" "premiumModels")
    by (discriminate || apply mem_set_same).
  now rewrite !set_set_same.
Qed.

End PyDictMore.

(** X10. The config patch can be run again: a second run on the document
    that a first run wrote leaves exactly the document that one run with
    the second limit writes, so with the same limit it changes nothing.
    The reader is assumed to read back what the writer wrote for this
    document. *)
Theorem modify_product_json_rerun (E : env) (cp : string) (tl1 tl2 : json)
    (w : world) (text : string) (d : list (string * json)) :
  let p := product_json_path E cp in
  expanduser E p = p ->
  content_at w p = Some text ->
  writable_at w p = true ->
  read_fault E p = false ->
  write_fault E p = NoFault ->
  json_load E text = Some (JDict d) ->
  json_load E (json_dump E (JDict (patched_document tl1 d)))
  = Some (JDict (patched_document tl1 d)) ->
  let w1 := snd (modify_product_json E cp tl1 w) in
  let w2 := snd (modify_product_json E cp tl2 w1) in
  fst (modify_product_json E cp tl2 w1) = Ok tt
  /\ content_at w2 p = Some (json_dump E (JDict (patched_document tl2 d)))
  /\ content_at w2 p = content_at (snd (modify_product_json E cp tl2 w)) p
  /\ (tl1 = tl2 -> content_at w2 p = content_at w1 p).
Proof.
  intros p Hexp Hc Hw Hrf Hwf Hload Hback w1 w2.
  pose proof (modify_product_json_run E cp tl1 w text d
                Hexp Hc Hw Hrf Hwf Hload) as R1. fold p in R1.
  pose proof (modify_product_json_run E cp tl2 w text d
                Hexp Hc Hw Hrf Hwf Hload) as R0. fold p in R0.
  assert (content_at w1 p
          = Some (json_dump E (JDict (patched_document tl1 d)))) as C1.
  { unfold w1. rewrite R1. unfold content_at. cbn [snd nodes].
    now rewrite lookup_insert_eq. }
  assert (writable_at w1 p = true) as W1.
  { unfold w1. rewrite R1. unfold writable_at. cbn [snd nodes].
    now rewrite lookup_insert_eq. }
  pose proof (modify_product_json_run E cp tl2 w1 _ _
                Hexp C1 W1 Hrf Hwf Hback) as R2. fold p in R2.
  rewrite PyDictMore.patched_document_twice in R2.
  assert (content_at w2 p
          = Some (json_dump E (JDict (patched_document tl2 d)))) as C2.
  { unfold w2. rewrite R2. unfold content_at. cbn [snd nodes].
    now rewrite lookup_insert_eq. }
  split; [now rewrite R2 |]. split; [exact C2 |]. split.
  - rewrite C2, R0. unfold content_at. cbn [snd nodes].
    now rewrite lookup_insert_eq.
  - intros <-. now rewrite C1, C2.
Qed.

Lemma modify_product_json_rerun_witness :
  let once := snd (modify_product_json Demo.host "~/.config/cursor" (JInt 7)
                     Demo.installed) in
  let twice := snd (modify_product_json Demo.host "~/.config/cursor" (JInt 7)
                      once) in
  json_load Demo.host
    (json_dump Demo.host (JDict (patched_document (JInt 7) [("a", JInt 1)])))
  = Some (JDict (patched_document (JInt 7) [("a", JInt 1)]))
  /\ content_at twice Demo.product_json = content_at once Demo.product_json.
Proof.
  intros once twice. split; [vm_compute; reflexivity |].
  destruct (modify_product_json_rerun Demo.host "~/.config/cursor"
              (JInt 7) (JInt 7) Demo.installed (Demo.dumps 0 Demo.doc_a)
              [("a", JInt 1)]) as (_ & _ & _ & Hsame);
    [vm_compute; reflexivity .. |].
  exact (Hsame eq_refl).
Defined.

(** ** What a failed reset leaves in the identifier file *)

Section FailedReset.
Variable E : env.

Lemma check_and_set_permissions_draws p w :
  draws (snd (check_and_set_permissions E p w)) = draws w.
Proof.
  destruct (exists_at w (expanduser E p)) eqn:Hex;
    [| now rewrite (check_missing E p w Hex)].
  destruct (writable_at w (expanduser E p)) eqn:Hw;
    [now rewrite (check_writable E p w Hw) |].
  destruct (escalation_command E (expanduser E p)) as [argv |] eqn:Hcmd;
    [| now rewrite (check_no_command_run E p w Hex Hw Hcmd)].
  rewrite (check_escalation_run E p w argv Hex Hw Hcmd).
  destruct (granted_facts E (expanduser E p) argv w) as (_ & _ & _ & Hd & _).
  now destruct (check_call E argv).
Qed.

Lemma reset_machine_id_failure cp w :
  let p := machine_id_path E cp in
  let new_id := PyUuid.to_str (PyUuid.uuid4 (urandom E (draws w))) in
  after (reset_machine_id E cp) w (fun r w' =>
    r = Ok tt
    \/ content_at w' p = content_at w p
    \/ cut_short E p new_id w').
Proof.
  intros p new_id. unfold reset_machine_id. fold p.
  apply after_bind.
  apply after_weaken
    with (Q := fun _ w1 => keeps_content p w w1 /\ draws w1 = draws w).
  { split; [apply check_and_set_permissions_keeps_content
           | apply check_and_set_permissions_draws]. }
  intros [[] | e | c] w1 [K D]; cbv beta iota; [| right; left; exact K ..].
  apply after_bind, after_emit.
  apply after_try, after_bind, after_new_uuid4. cbn [draws]. rewrite D.
  fold new_id.
  apply after_bind, after_write_text.
  - intros _ _ _. apply after_emit. now left.
  - intros _. run_handler. right; left; exact K.
  - intros n _ Hf Hn. run_handler. right; right.
    exists n. split; [exact Hf |]. split; [exact Hn |].
    rewrite content_at_World. apply (content_at_set_node p (File _ true)).
Qed.

End FailedReset.

(** X11. When [reset_machine_id] does not return normally, the identifier
    file holds either the text it held before or a proper prefix of the
    new identifier: the old identifier is lost as soon as the file was
    opened, also when the new one was not written to the end. *)
Theorem failed_reset_prior_or_prefix (E : env) (cp : string) (w : world) :
  let p := machine_id_path E cp in
  let new_id := PyUuid.to_str (PyUuid.uuid4 (urandom E (draws w))) in
  let w' := snd (reset_machine_id E cp w) in
  fst (reset_machine_id E cp w) <> Ok tt ->
  content_at w' p = content_at w p \/ cut_short E p new_id w'.
Proof.
  intros p new_id w' Hfail.
  destruct (reset_machine_id_failure E cp w) as [H | H];
    [contradiction | exact H].
Qed.

Lemma failed_reset_prior_or_prefix_witness :
  let run := reset_machine_id (Demo.host_cut 3) "~/.config/cursor"
               Demo.installed in
  fst run <> Ok tt
  /\ (content_at (snd run) Demo.machine_id
      = content_at Demo.installed Demo.machine_id
      \/ cut_short (Demo.host_cut 3) Demo.machine_id
           "01234567-89ab-4def-8123-456789abcdef" (snd run)).
Proof.
  intros run.
  assert (fst run <> Ok tt) as Hfail by (vm_compute; discriminate).
  split; [exact Hfail |].
  exact (failed_reset_prior_or_prefix (Demo.host_cut 3) "~/.config/cursor"
           Demo.installed Hfail).
Defined.

(** ** The login page *)

Section LoginPage.
Variable E : env.

Lemma open_login_page_unsupported b w :
  supported_browser E b = false ->
  open_login_page E b w
  = (Exited 1,
     with_events w [Progress MsgOpeningLogin; Panel MsgBrowserError]).
Proof.
  unfold supported_browser, in_list. cbn [existsb].
  intros H. apply orb_false_iff in H as [H1 H4].
  apply orb_false_iff in H1 as [H1 H2].
  apply orb_false_iff in H2 as [H2 H3].
  apply orb_false_iff in H3 as [H3 _].
  unfold open_login_page. rewrite H1, H2, H3.
  destruct (String.eqb b "safari"); cbn [andb] in H4;
    [rewrite H4 |]; cbn; unfold with_events; cbn;
    now rewrite <- !List.app_assoc.
Qed.

(** On a supported browser the branches of lines 275-288 come to one
    statement that builds the driver. *)
Lemma open_login_page_supported b w :
  supported_browser E b = true ->
  open_login_page E b w
  = (emit (Progress MsgOpeningLogin) ;;
     try_except
       (start_driver E b (managed b) ;;
        driver_get E LOGIN_URL ;;
        emit (Progress MsgLoginOpened) ;;
        emit (Panel MsgLoginPrompt) ;;
        await_enter E ;;
        driver_quit E)
       any_exception
       (emit (Panel MsgBrowserError) ;; exit 1)) w.
Proof.
  intros H.
  unfold supported_browser, in_list in H. cbn [existsb] in H.
  unfold open_login_page.
  destruct (String.eqb b "chrome") eqn:H1;
    [apply String.eqb_eq in H1; now subst |].
  destruct (String.eqb b "firefox") eqn:H2;
    [apply String.eqb_eq in H2; now subst |].
  destruct (String.eqb b "edge") eqn:H3;
    [apply String.eqb_eq in H3; now subst |].
  destruct (String.eqb b "safari") eqn:H4; [| discriminate H].
  apply String.eqb_eq in H4. subst. cbn in H. now rewrite H.
Qed.

Lemma open_login_page_run b w :
  let start := [Progress MsgOpeningLogin; Launch b] in
  let shown := [Navigate LOGIN_URL; Progress MsgLoginOpened;
                Panel MsgLoginPrompt] in
  let fails (w1 : world) (evs : list event) : result unit * world :=
    (Exited 1, with_events w1 (evs ++ [Panel MsgBrowserError])%list) in
  let w1 := if managed b then cached b w else w in
  open_login_page E b w
  = if negb (supported_browser E b) then fails w [Progress MsgOpeningLogin]
    else if managed b && install_fault E b then fails w start
    else if driver_fault E b then fails w1 start
    else if get_fault E LOGIN_URL then fails w1 start
    else if input_fault E then fails w1 (start ++ shown)%list
    else if quit_fault E then fails w1 (start ++ shown ++ [AwaitEnter])%list
    else (Ok tt, with_events w1 (start ++ shown ++ [AwaitEnter; QuitDriver])%list).
Proof.
  intros start shown fails w1.
  destruct (supported_browser E b) eqn:Hs; cbn [negb].
  2: { now apply open_login_page_unsupported. }
  rewrite (open_login_page_supported b w Hs).
  unfold fails, w1, start, shown, start_driver, install_driver, driver_get,
    await_enter, driver_quit, try_except, bind, emit, raise, exit, ret,
    with_events, cached, any_exception.
  cbn [nodes trace draws wdm].
  destruct (managed b); cbn [andb];
    [destruct (install_fault E b) |];
    destruct (driver_fault E b); destruct (get_fault E LOGIN_URL);
    destruct (input_fault E); destruct (quit_fault E);
    cbn [nodes trace draws wdm]; rewrite <- ?List.app_assoc; reflexivity.
Qed.

Lemma open_login_page_launches b w :
  supported_browser E b = true ->
  In (Launch b) (trace (snd (open_login_page E b w))).
Proof.
  intros Hs. rewrite (open_login_page_run b w). rewrite Hs. cbn [negb].
  repeat match goal with
         | |- context [if ?c then _ else _] => destruct c
         end;
    cbn [snd with_events trace]; apply in_or_app; right; cbn; auto.
Qed.

End LoginPage.

(** X12. [open_login_page] enters the statement that builds a driver only
    for Chrome, Firefox and Edge, where a driver manager first installs
    the driver into its cache, and for Safari on macOS; for any other
    browser it shows the error panel and exits with code 1 at once. Every
    failure inside the step is handled in the same way, by the error panel
    and exit code 1: of the manager, of the start of the driver, of
    [driver.get], of [input()] and of [driver.quit()]. The driver is quit
    only as the last action of a run in which nothing failed: when
    [driver.get] or [input()] fails after the driver has started, the step
    exits without quitting it. The files that the script names are never
    touched; only the managers' cache can gain a driver. *)
Theorem open_login_page_outcomes (E : env) (browser_type : string)
    (w : world) :
  let start := [Progress MsgOpeningLogin; Launch browser_type] in
  let shown := [Navigate LOGIN_URL; Progress MsgLoginOpened;
                Panel MsgLoginPrompt] in
  let fails (w1 : world) (evs : list event) : result unit * world :=
    (Exited 1, with_events w1 (evs ++ [Panel MsgBrowserError])%list) in
  let w1 := if managed browser_type then cached browser_type w else w in
  open_login_page E browser_type w
  = (if negb (supported_browser E browser_type)
     then fails w [Progress MsgOpeningLogin]
     else if managed browser_type && install_fault E browser_type
     then fails w start
     else if driver_fault E browser_type then fails w1 start
     else if get_fault E LOGIN_URL then fails w1 start
     else if input_fault E then fails w1 (start ++ shown)%list
     else if quit_fault E then fails w1 (start ++ shown ++ [AwaitEnter])%list
     else (Ok tt,
           with_events w1 (start ++ shown ++ [AwaitEnter; QuitDriver])%list))
  /\ nodes (snd (open_login_page E browser_type w)) = nodes w
  /\ draws (snd (open_login_page E browser_type w)) = draws w.
Proof.
  intros start shown fails w1.
  pose proof (open_login_page_run E browser_type w) as Hrun.
  cbv zeta in Hrun. fold start shown in Hrun.
  split; [exact Hrun |].
  rewrite Hrun.
  repeat match goal with
         | |- context [if ?c then _ else _] => destruct c
         end; split; reflexivity.
Qed.

(** Standard input is closed: the browser has started and shows the
    page, [input()] fails, and the step exits without [driver.quit()];
    the driver is in the managers' cache. *)
Example login_without_stdin :
  let run := open_login_page Demo.host_no_stdin "chrome" Demo.installed in
  fst run = Exited 1
  /\ trace (snd run)
     = [Progress MsgOpeningLogin; Launch "chrome"; Navigate LOGIN_URL;
        Progress MsgLoginOpened; Panel MsgLoginPrompt; Panel MsgBrowserError]
  /\ wdm (snd run) = ["chrome"]
  /\ nodes (snd run) = nodes Demo.installed.
Proof. vm_compute. repeat split. Qed.

(** ** From the menu to the login page *)

Lemma select_browser_cases (E : env) (choice b : string) :
  select_browser E choice = Some b ->
  (choice = "1" /\ b = "chrome") \/ (choice = "2" /\ b = "firefox")
  \/ (choice = "3" /\ b = "edge")
  \/ (choice = "4" /\ b = "safari" /\ system E = "Darwin").
Proof.
  unfold select_browser, browsers.
  destruct (String.eqb (system E) "Darwin") eqn:Hs; cbn [app menu_get];
    destruct (String.eqb choice "1") eqn:H1;
    try (apply String.eqb_eq in H1; intros [= <-]; now left);
    destruct (String.eqb choice "2") eqn:H2;
    try (apply String.eqb_eq in H2; intros [= <-]; right; now left);
    destruct (String.eqb choice "3") eqn:H3;
    try (apply String.eqb_eq in H3; intros [= <-]; right; right; now left);
    try discriminate.
  destruct (String.eqb choice "4") eqn:H4; [| discriminate].
  apply String.eqb_eq in H4, Hs. intros [= <-]. now repeat right.
Qed.

(** X13. The menu and the login page agree: a key of the menu always
    selects a browser, and every browser that [select_browser] can return
    is one for which [open_login_page] on the same platform enters the
    statement that builds a driver. The branch for an unsupported browser
    is never taken on a browser that came from the menu. *)
Theorem selected_browser_is_supported (E : env) (choice : string)
    (w : world) :
  In choice (map fst (browsers E)) ->
  exists b,
    select_browser E choice = Some b
    /\ supported_browser E b = true
    /\ In (Launch b) (trace (snd (open_login_page E b w))).
Proof.
  intros Hin.
  assert (exists b, select_browser E choice = Some b) as [b Hb].
  { unfold select_browser, browsers in *.
    destruct (String.eqb (system E) "Darwin"); cbn in Hin;
      repeat (destruct Hin as [<- | Hin]; [eexists; reflexivity |]);
      contradiction. }
  exists b. split; [exact Hb |].
  assert (supported_browser E b = true) as Hs.
  { unfold supported_browser.
    destruct (select_browser_cases E choice b Hb)
      as [[_ ->] | [[_ ->] | [[_ ->] | (_ & -> & ->)]]]; reflexivity. }
  split; [exact Hs |].
  now apply open_login_page_launches.
Qed.

Lemma selected_browser_is_supported_witness :
  In "2" (map fst (browsers Demo.host))
  /\ exists b,
       select_browser Demo.host "2" = Some b
       /\ supported_browser Demo.host b = true
       /\ In (Launch b)
            (trace (snd (open_login_page Demo.host b Demo.installed))).
Proof.
  assert (In "2" (map fst (browsers Demo.host))) as Hin
    by (vm_compute; auto).
  split; [exact Hin |].
  exact (selected_browser_is_supported Demo.host "2" Demo.installed Hin).
Defined.

(** ** [main] before and after the steps *)

(** X14. When the installation path of the configuration does not exist,
    [main] shows the panel that names the path and exits with code 1
    before the first step: no process is asked to terminate, no identifier
    is drawn, no command is run and the filesystem is as it was. *)
Theorem main_stops_when_installation_missing (E : env) (cfg : config)
    (browser_type : string) (w : world) :
  let w' := snd (main E cfg browser_type w) in
  exists_at w (expanduser E (cursor_path cfg)) = false ->
  fst (main E cfg browser_type w) = Exited 1
  /\ trace w' = (trace w ++ [Panel (MsgPathNotFound (cursor_path cfg))])%list
  /\ nodes w' = nodes w
  /\ draws w' = draws w
  /\ terminated (trace w') = terminated (trace w)
  /\ escalations (trace w') = escalations (trace w).
Proof.
  intros w' Hmiss. unfold w'.
  rewrite (main_path_missing E cfg browser_type w Hmiss).
  cbn [fst snd trace nodes draws].
  do 4 (split; [reflexivity |]). split.
  - unfold terminated. rewrite flat_map_app. cbn. apply List.app_nil_r.
  - rewrite escalations_app.
    change (escalations [Panel (MsgPathNotFound (cursor_path cfg))]) with 0.
    lia.
Qed.

Lemma main_stops_when_installation_missing_witness :
  let w := World (empty : gmap string node) [] 0 [] in
  exists_at w (expanduser Demo.host (cursor_path Demo.cfg)) = false
  /\ fst (main Demo.host Demo.cfg "chrome" w) = Exited 1
  /\ nodes (snd (main Demo.host Demo.cfg "chrome" w)) = nodes w.
Proof.
  intros w.
  assert (exists_at w (expanduser Demo.host (cursor_path Demo.cfg)) = false)
    as Hmiss by (vm_compute; reflexivity).
  split; [exact Hmiss |].
  destruct (main_stops_when_installation_missing Demo.host Demo.cfg "chrome"
              w Hmiss) as (Hr & _ & Hn & _).
  split; [exact Hr | exact Hn].
Defined.

(** X15. When the installation path exists, [main] ends as the five steps
    end. It shows the success panel and the closing line exactly when all
    five steps returned normally, and these are then the last two events;
    when a step did not return normally, [main] ends with that step's
    result in the world that step left, and announces no success. *)
Theorem main_reports_success_after_all_steps (E : env) (cfg : config)
    (browser_type : string) (w : world) :
  let run := step_run E cfg browser_type in
  let r := fst (main E cfg browser_type w) in
  let w' := snd (main E cfg browser_type w) in
  let ws := snd (run_steps E cfg browser_type w) in
  exists_at w (expanduser E (cursor_path cfg)) = true ->
  exists done : list (step * world),
    runs_in_order run pipeline w done r ws
    /\ (r = Ok tt <-> map fst done = pipeline)
    /\ (r = Ok tt -> w' = with_events ws [Panel MsgSuccess; Print MsgEnjoy])
    /\ (r <> Ok tt -> w' = ws).
Proof.
  intros run r w' ws Hex.
  destruct (seq_all_in_order run pipeline w) as [done D].
  unfold run in D. rewrite <- run_steps_seq in D. fold run ws in D.
  assert (main E cfg browser_type w
          = (run_steps E cfg browser_type ;; emit (Panel MsgSuccess) ;;
             emit (Print MsgEnjoy)) w) as Hmain.
  { unfold main, bind at 1, path_exists. now rewrite Hex. }
  assert (r = fst (run_steps E cfg browser_type w)
          /\ (r = Ok tt ->
              w' = with_events ws [Panel MsgSuccess; Print MsgEnjoy])
          /\ (r <> Ok tt -> w' = ws)) as (Hr & Hok & Hfail).
  { unfold r, w', ws. rewrite Hmain. unfold bind.
    destruct (run_steps E cfg browser_type w) as [[[] | e | c] w1];
      cbn [fst snd]; (split; [reflexivity |]); split; intros H;
      try discriminate; try reflexivity; try now contradict H.
    unfold emit, with_events. cbn [nodes trace draws].
    now rewrite <- List.app_assoc. }
  exists done. rewrite <- Hr in D.
  split; [exact D |].
  split; [exact (rio_all_done _ _ _ _ _ _ D) |].
  split; assumption.
Qed.

Lemma main_reports_success_after_all_steps_witness :
  exists_at Demo.installed (expanduser Demo.host (cursor_path Demo.cfg)) = true
  /\ fst (main Demo.host Demo.cfg "chrome" Demo.installed) = Ok tt
  /\ snd (main Demo.host Demo.cfg "chrome" Demo.installed)
     = with_events (snd (run_steps Demo.host Demo.cfg "chrome" Demo.installed))
         [Panel MsgSuccess; Print MsgEnjoy].
Proof.
  assert (exists_at Demo.installed
            (expanduser Demo.host (cursor_path Demo.cfg)) = true) as Hex
    by (vm_compute; reflexivity).
  assert (fst (main Demo.host Demo.cfg "chrome" Demo.installed) = Ok tt)
    as Hok by (vm_compute; reflexivity).
  split; [exact Hex |]. split; [exact Hok |].
  destruct (main_reports_success_after_all_steps Demo.host Demo.cfg "chrome"
              Demo.installed Hex) as (done & _ & _ & Hs & _).
  exact (Hs Hok).
Defined.

(** ** Steps that never started *)

Section Started.
Variable run : step -> M unit.

(** A world relation that the steps respect holds between the start and
    the end of the run when the steps that started respect it: those that
    returned normally and the one after them. *)
Lemma rio_respects_started (R : world -> world -> Prop) (P : step -> Prop) :
  (forall w, R w w) ->
  (forall w1 w2 w3, R w1 w2 -> R w2 w3 -> R w1 w3) ->
  (forall s, P s -> respects R (run s)) ->
  forall ss w done r w',
    runs_in_order run ss w done r w' ->
    Forall P (firstn (S (List.length done)) ss) -> R w w'.
Proof.
  intros Hrefl Htrans Hrun.
  induction 1 as [w | s ss w w1 done r w' Hs _ IH | s ss w r w' Hs Hr];
    intros HP.
  - apply Hrefl.
  - cbn [List.length firstn] in HP.
    inversion HP as [| ? ? HPs HPss]; subst.
    apply Htrans with w1; [| now apply IH].
    pose proof (Hrun s HPs w) as H. now rewrite Hs in H.
  - cbn [List.length firstn] in HP.
    inversion HP as [| ? ? HPs HPss]; subst.
    pose proof (Hrun s HPs w) as H. now rewrite Hs in H.
Qed.

End Started.

(** X16. A run of the steps changes only the files of the steps that
    started: a file that is the file of none of the steps that returned
    normally, nor of the step after them, holds at the end the text it
    held at the start. In particular the files of the steps after a failed
    step are untouched. *)
Theorem run_steps_leaves_unstarted_files (E : env) (cfg : config)
    (browser_type : string) (w : world) :
  let run := step_run E cfg browser_type in
  let r := fst (run_steps E cfg browser_type w) in
  let w' := snd (run_steps E cfg browser_type w) in
  exists done : list (step * world),
    runs_in_order run pipeline w done r w'
    /\ forall q,
         Forall (fun s => target E cfg s <> Some q)
           (firstn (S (List.length done)) pipeline) ->
         content_at w' q = content_at w q.
Proof.
  intros run r w'.
  destruct (seq_all_in_order run pipeline w) as [done D].
  unfold run in D. rewrite <- run_steps_seq in D. fold run r w' in D.
  exists done. split; [exact D |].
  intros q Hq.
  exact (rio_respects_started run (keeps_content q)
           (fun s => target E cfg s <> Some q)
           (keeps_content_refl q) (keeps_content_trans q)
           (step_run_keeps_content E cfg browser_type q)
           _ _ _ _ _ D Hq).
Qed.

(** ** The shape of a new identifier *)

Module UuidShape.
Import PyUuid.
Local Open Scope N_scope.

Lemma hex_digit_is_hex d :
  PyStr.has_char (hex_digit d) "0123456789abcdef" = true.
Proof.
  unfold hex_digit. generalize (N.to_nat d) as n. intros n.
  do 16 (destruct n as [|n]; [reflexivity |]). reflexivity.
Qed.

Lemma hex_all_hex k n : all_hex (hex k n) = true.
Proof.
  induction k as [|k IH]; [reflexivity |].
  cbn [hex all_hex]. now rewrite hex_digit_is_hex, IH.
Qed.

Lemma dashed_shaped h :
  String.length h = 32%nat -> all_hex h = true ->
  uuid_shaped (dashed h) = true.
Proof.
  intros L H.
  do 32 (destruct h as [|? h]; [discriminate L |]).
  destruct h; [| discriminate L]. clear L.
  cbn [all_hex] in H.
  repeat (apply andb_true_iff in H as [? H]).
  unfold uuid_shaped, dashed.
  cbn [String.substring String.append uuid_shaped_from existsb Nat.eqb orb
       String.length Nat.sub].
  repeat match goal with
         | Hc : PyStr.has_char ?c _ = true |- _ => rewrite Hc; clear Hc
         end.
  reflexivity.
Qed.

Lemma get_dashed_14 h :
  String.length h = 32%nat -> String.get 14 (dashed h) = String.get 12 h.
Proof.
  intros L.
  do 32 (destruct h as [|? h]; [discriminate L |]).
  destruct h; [reflexivity | discriminate L].
Qed.

Lemma get_dashed_19 h :
  String.length h = 32%nat -> String.get 19 (dashed h) = String.get 16 h.
Proof.
  intros L.
  do 32 (destruct h as [|? h]; [discriminate L |]).
  destruct h; [reflexivity | discriminate L].
Qed.

Lemma get_hex k : forall i n,
  (i < k)%nat ->
  String.get i (hex k n)
  = Some (hex_digit ((n / 16 ^ N.of_nat (k - 1 - i)) mod 16)).
Proof.
  induction k as [|k IH]; intros i n Hi; [lia |].
  cbn [hex]. destruct i as [|i]; cbn [String.get].
  - replace (S k - 1 - 0)%nat with k by lia. reflexivity.
  - rewrite IH by lia.
    replace (S k - 1 - S i)%nat with (k - 1 - i)%nat by lia. reflexivity.
Qed.

Lemma uuid4_testbit r i :
  N.testbit (uuid4 r) i
  = (((N.testbit (r mod 2 ^ 128) i && negb (N.testbit (N.shiftl 0xc000 48) i)
       || N.testbit (N.shiftl 0x8000 48) i)
      && negb (N.testbit (N.shiftl 0xf000 64) i))
     || N.testbit (N.shiftl 4 76) i)%bool.
Proof.
  unfold uuid4. cbv zeta.
  now rewrite N.lor_spec, N.ldiff_spec, N.lor_spec, N.ldiff_spec.
Qed.

Lemma nibble_testbit n k i :
  N.testbit ((n / 16 ^ k) mod 16) i
  = (if i <? 4 then N.testbit n (i + 4 * k) else false).
Proof.
  change 16 with (2 ^ 4). rewrite <- N.pow_mul_r.
  destruct (N.ltb_spec i 4) as [Hi | Hi].
  - rewrite N.mod_pow2_bits_low by exact Hi.
    now rewrite N.div_pow2_bits.
  - now apply N.mod_pow2_bits_high.
Qed.

Lemma nibble_cases d :
  d < 16 -> N.testbit d 3 = true -> N.testbit d 2 = false ->
  d = 8 \/ d = 9 \/ d = 10 \/ d = 11.
Proof.
  intros Hd. rewrite <- (N2Nat.id d) in *.
  assert (N.to_nat d < 16)%nat as Hn by lia.
  revert Hn. generalize (N.to_nat d) as n. intros n Hn.
  do 16 (destruct n as [|n];
         [cbn; intros; first [discriminate | lia] |]).
  lia.
Qed.

Lemma version_nibble r : (uuid4 r / 16 ^ 19) mod 16 = 4.
Proof.
  apply N.bits_inj. intros i. rewrite nibble_testbit.
  destruct (N.ltb_spec i 4) as [Hi | Hi].
  - rewrite uuid4_testbit.
    generalize (N.testbit (r mod 2 ^ 128)) as bit. intros bit.
    assert (i = 0 \/ i = 1 \/ i = 2 \/ i = 3) as [-> | [-> | [-> | ->]]]
      by lia; cbn; now rewrite ?andb_false_r.
  - symmetry. apply N.bits_above_log2. change (N.log2 4) with 2. lia.
Qed.

Lemma variant_nibble r :
  let d := (uuid4 r / 16 ^ 15) mod 16 in
  d = 8 \/ d = 9 \/ d = 10 \/ d = 11.
Proof.
  intros d. apply nibble_cases.
  - apply N.mod_lt. discriminate.
  - unfold d. rewrite nibble_testbit, uuid4_testbit.
    generalize (N.testbit (r mod 2 ^ 128)) as bit. intros bit.
    cbn. now rewrite ?andb_false_r, ?andb_true_r, ?orb_true_r.
  - unfold d. rewrite nibble_testbit, uuid4_testbit.
    generalize (N.testbit (r mod 2 ^ 128)) as bit. intros bit.
    cbn. now rewrite ?andb_false_r, ?andb_true_r, ?orb_false_r.
Qed.

End UuidShape.

(** X18. Whatever the random bytes, the identifier that [reset_machine_id]
    draws is a text of 36 characters in the 8-4-4-4-12 shape, lower-case
    hexadecimal digits between dashes, whose version digit is [4] and
    whose variant digit is one of [8], [9], [a] and [b]; drawing it
    consumes one random value and changes nothing else. *)
Theorem new_uuid4_shape (E : env) (w : world) :
  exists new_id,
    new_uuid4 E w = (Ok new_id, World (nodes w) (trace w) (S (draws w)) (wdm w))
    /\ uuid_shaped new_id = true
    /\ String.get 14 new_id = Some "4"%char
    /\ exists c, String.get 19 new_id = Some c
                 /\ In c ["8"; "9"; "a"; "b"]%char.
Proof.
  eexists. split; [reflexivity |].
  set (n := PyUuid.uuid4 (urandom E (draws w))).
  unfold PyUuid.to_str.
  pose proof (PyUuidFacts.hex_length 32 n) as L.
  split; [apply UuidShape.dashed_shaped;
          [exact L | apply UuidShape.hex_all_hex] |].
  rewrite UuidShape.get_dashed_14, UuidShape.get_dashed_19 by exact L.
  rewrite !UuidShape.get_hex by lia.
  change (N.of_nat (32 - 1 - 12)) with 19%N.
  change (N.of_nat (32 - 1 - 16)) with 15%N.
  unfold n. rewrite UuidShape.version_nibble. split; [reflexivity |].
  eexists. split; [reflexivity |].
  destruct (UuidShape.variant_nibble (urandom E (draws w)))
    as [-> | [-> | [-> | ->]]]; cbn; auto.
Qed.

(** ** How a run can end *)

Section Ends.
Variable E : env.

Ltac ends :=
  first [ now left | right; now left ].

Lemma check_and_set_permissions_ends p w :
  after (check_and_set_permissions E p) w (ends_as_handled E).
Proof.
  unfold after.
  destruct (exists_at w (expanduser E p)) eqn:Hex;
    [| rewrite (check_missing E p w Hex); ends].
  destruct (writable_at w (expanduser E p)) eqn:Hw;
    [rewrite (check_writable E p w Hw); ends |].
  destruct (escalation_command E (expanduser E p)) as [argv |] eqn:Hcmd;
    [| rewrite (check_no_command_run E p w Hex Hw Hcmd); ends].
  rewrite (check_escalation_run E p w argv Hex Hw Hcmd).
  destruct (check_call E argv) eqn:Hcall; cbn [fst snd]; try ends.
  right; right; left. split; [reflexivity |].
  exists argv. split; [| exact Hcall].
  cbn [trace]. apply in_or_app. right. now left.
Qed.

Ltac after_check_ends :=
  apply after_bind;
  eapply after_weaken; [apply check_and_set_permissions_ends |];
  intros [[] | e | c] w1 H; cbv beta iota; [| exact H ..];
  apply after_bind, after_emit.

Lemma reset_machine_id_ends cp w :
  after (reset_machine_id E cp) w (ends_as_handled E).
Proof.
  unfold reset_machine_id. after_check_ends.
  apply after_try, after_bind, after_new_uuid4.
  apply after_bind, after_write_text.
  - intros _ _ _. apply after_emit. ends.
  - intros _. run_handler. ends.
  - intros n _ _ _. run_handler. ends.
Qed.

Lemma modify_product_json_ends cp tl w :
  after (modify_product_json E cp tl) w (ends_as_handled E).
Proof.
  unfold modify_product_json. after_check_ends.
  apply after_try, after_bind, after_path_exists.
  destruct (exists_at _ _); [| apply after_emit; ends].
  apply after_bind, after_read_text; [| intros _; run_handler; ends].
  intros text _ _.
  apply after_bind, after_of_option.
  destruct (json_load E text) as [data |]; [| run_handler; ends].
  apply after_bind, after_of_option.
  destruct data as [| b | z | f | s | l | d]; cbn [setitem];
    try (run_handler; ends).
  apply after_bind, after_of_option. cbn [setitem].
  apply after_bind, after_write_text.
  - intros _ _ _. apply after_emit. ends.
  - intros _. run_handler. ends.
  - intros n _ _ _. run_handler. ends.
Qed.

Lemma patch_workbench_ends cp v w :
  after (patch_workbench E cp v) w (ends_as_handled E).
Proof.
  unfold patch_workbench. after_check_ends.
  apply after_try, after_bind, after_path_exists.
  destruct (exists_at _ _); [| apply after_emit; ends].
  apply after_bind, after_read_text; [| intros _; run_handler; ends].
  intros content _ _.
  apply after_bind, after_write_text.
  - intros _ _ _. apply after_emit. ends.
  - intros _. run_handler. ends.
  - intros n _ _ _. run_handler. ends.
Qed.

Lemma check_cursor_process_ends w :
  after (check_cursor_process E) w (ends_as_handled E).
Proof.
  unfold after. rewrite (check_cursor_process_run E w).
  destruct (snd (reaped E (process_iter E))) as [e |] eqn:Hend; [| ends].
  right; right; right.
  destruct (reaped_failure E _ e Hend) as (proc & Hin & Hf).
  now exists proc, e.
Qed.

Lemma open_login_page_ends b w :
  after (open_login_page E b) w (ends_as_handled E).
Proof.
  unfold after. rewrite (open_login_page_run E b w).
  repeat match goal with
         | |- context [if ?c then _ else _] => destruct c
         end; ends.
Qed.

Lemma step_run_ends cfg b s w :
  after (step_run E cfg b s) w (ends_as_handled E).
Proof.
  destruct s; cbn [step_run].
  - apply check_cursor_process_ends.
  - apply reset_machine_id_ends.
  - apply modify_product_json_ends.
  - apply patch_workbench_ends.
  - apply open_login_page_ends.
Qed.

(** A run of steps ends normally or as its last step ended. *)
Lemma rio_last (run : step -> M unit) ss w done r w' :
  runs_in_order run ss w done r w' ->
  r = Ok tt \/ exists s w0, In s ss /\ run s w0 = (r, w').
Proof.
  induction 1 as [w | s ss w w1 done r w' Hs _ IH | s ss w r w' Hs Hr].
  - now left.
  - destruct IH as [-> | (s' & w0 & Hin & Hrun)]; [now left |].
    right. exists s', w0. split; [now right | exact Hrun].
  - right. exists s, w. split; [now left | exact Hs].
Qed.

Lemma run_steps_ends cfg b w :
  after (run_steps E cfg b) w (ends_as_handled E).
Proof.
  destruct (seq_all_in_order (step_run E cfg b) pipeline w) as [done D].
  rewrite <- run_steps_seq in D.
  destruct (rio_last _ _ _ _ _ _ D) as [H | (s & w0 & _ & Hrun)].
  - left. exact H.
  - pose proof (step_run_ends cfg b s w0) as H.
    unfold after in *. now rewrite Hrun in H.
Qed.

End Ends.

(** X19. The five steps of lines 348-352 end in one of four ways: all
    return normally; a handler of the script ends the run with exit code
    1; the permission check is ended by the [OSError] of a command that
    could not be started, which is raised outside its handler; or the
    loop over the processes, which has no handler, is ended by a process
    without a name or by a refused termination request. Everything that
    is raised while a file is read, parsed or written, or while the
    login page is opened, ends as exit code 1. Interrupts from the
    keyboard are outside the model. *)
Theorem run_steps_ends_as_handled (E : env) (cfg : config)
    (browser_type : string) (w : world) :
  let r := fst (run_steps E cfg browser_type w) in
  let w' := snd (run_steps E cfg browser_type w) in
  r = Ok tt
  \/ r = Exited 1
  \/ (r = Raised OSError
      /\ exists argv,
           In (Subprocess argv) (trace w')
           /\ check_call E argv = CallNotStarted)
  \/ (exists proc e,
        In proc (process_iter E) /\ fails_on E proc = Some e
        /\ r = Raised e
        /\ (e = TypeError \/ e = NoSuchProcess \/ e = AccessDenied)).
Proof.
  intros r w'. unfold r, w'.
  pose proof (run_steps_ends E cfg browser_type w) as H.
  unfold after, ends_as_handled, unstarted_command, reaper_failure in H.
  destruct H as [H | [H | [H | (proc & e & Hin & Hf & H)]]]; auto.
  right; right; right. exists proc, e.
  repeat split; auto. exact (fails_on_cases E proc e Hf).
Qed.

Lemma run_steps_leaves_unstarted_files_witness :
  let run := run_steps (Demo.host_cut 3) Demo.cfg "chrome" Demo.installed in
  fst run = Exited 1
  /\ content_at (snd run) Demo.product_json
     = content_at Demo.installed Demo.product_json
  /\ content_at (snd run) Demo.workbench_js
     = content_at Demo.installed Demo.workbench_js.
Proof.
  intros run. split; [vm_compute; reflexivity |].
  destruct (run_steps_leaves_unstarted_files (Demo.host_cut 3) Demo.cfg
              "chrome" Demo.installed) as (done & D & H).
  assert (List.length done = 1%nat) as L.
  { inversion D as [| s ss w0 w1 done1 r0 w0' H1 D1 | s ss w0 r0 w0' H1 H2];
      subst; [| vm_compute in H1; discriminate H1].
    inversion D1 as [| s ss w0 w2 done2 r0 w0' H3 D2 | s ss w0 r0 w0' H3 H4];
      subst; [| reflexivity].
    vm_compute in H1. injection H1 as <-.
    vm_compute in H3. discriminate H3. }
  split; apply H; rewrite L; repeat constructor; discriminate.
Defined.
